(** * nesoutage: geocoding, outage feed and proximity ranking

    A shallow embedding of [nes_service.py] and [server.py].

    - Python values that cross a dynamic boundary (decoded JSON, dataclass
      fields filled from it, dict results) are values of [pyval].
    - A Python [float] is an IEEE binary64 number: [PrimFloat.float].
    - Event objects live in a heap indexed by references, so that a list of
      events is a list of references and an assignment to an attribute is
      seen through every alias.
    - A computation takes a state (heap and log of outbound HTTP requests)
      and yields either a value or a raised exception, with the new state.
    - The transcendental functions of Python's [math] module and [**] on
      floats are provided by the C library of the platform; they are the
      fields of [MathModule], a parameter of the ranking code. *)

From Stdlib Require Import Floats ZArith Lia.
From stdpp Require Import gmap strings list fin_maps sorting.

Set Warnings "-register-all".
#[local] Open Scope string_scope.
#[local] Open Scope list_scope.
#[local] Open Scope Z_scope.

(** ** Exceptions and results *)

Inductive exn :=
  | ConnectionError   (* requests.get failed: no route, time-out, ... *)
  | HTTPError         (* raise_for_status on a 4xx or 5xx reply *)
  | JSONDecodeError   (* requests.exceptions.JSONDecodeError, from resp.json() *)
  | KeyError
  | IndexError
  | AttributeError
  | TypeError
  | ValueError
  | OverflowError
  | RecursionError.

(** [requests.RequestException] is the base class of the three exceptions
    that the [requests] library itself raises ([JSONDecodeError] is one of
    them since requests 2.27). *)
Definition is_RequestException (e : exn) : bool :=
  match e with
  | ConnectionError | HTTPError | JSONDecodeError => true
  | _ => false
  end.

Inductive res (A : Type) :=
  | Return (a : A)
  | Raise (e : exn).
Arguments Return {A} a.
Arguments Raise {A} e.

Definition res_bind {A B} (r : res A) (k : A → res B) : res B :=
  match r with
  | Return a => k a
  | Raise e => Raise e
  end.

Declare Scope res_scope.
Delimit Scope res_scope with res.
Notation "x <~ r ; k" := (res_bind r (fun x => k))
  (at level 100, r at next level, right associativity,
   format "'[v' x  <~  r ;  '/' k ']'") : res_scope.

(** ** Python values *)

Inductive pyval :=
  | VNone
  | VBool (b : bool)
  | VInt (z : Z)
  | VFloat (f : float)
  | VStr (s : string)
  | VList (l : list pyval)
  | VDict (d : gmap string pyval).

(** Truth value of an object, as used by [not x] and [x or y]. *)
Definition float_truthy (f : float) : bool := negb (PrimFloat.eqb f 0%float).

Definition truthy (v : pyval) : bool :=
  match v with
  | VNone => false
  | VBool b => b
  | VInt z => negb (z =? 0)
  | VFloat f => float_truthy f
  | VStr s => negb (String.eqb s "")
  | VList l => match l with [] => false | _ => true end
  | VDict d => match map_to_list d with [] => false | _ => true end
  end.

(** [obj.get(key, default)]: only dicts have the method. *)
Definition py_get (obj : pyval) (key : string) (dflt : pyval) : res pyval :=
  match obj with
  | VDict d => Return (default dflt (d !! key))
  | _ => Raise AttributeError
  end.

(** [obj[0]]. *)
Definition py_getitem0 (obj : pyval) : res pyval :=
  match obj with
  | VList (x :: _) => Return x
  | VList [] => Raise IndexError
  | VStr (String c _) => Return (VStr (String c ""))
  | VStr "" => Raise IndexError
  | VDict _ => Raise KeyError   (* the keys of a decoded JSON object are strings *)
  | _ => Raise TypeError
  end.

Fixpoint chars (s : string) : list pyval :=
  match s with
  | "" => []
  | String c s' => VStr (String c "") :: chars s'
  end.

(** The items that [for item in obj] runs over. *)
Definition py_iter (obj : pyval) : res (list pyval) :=
  match obj with
  | VList l => Return l
  | VDict d => Return (VStr <$> (map_to_list d).*1)
  | VStr s => Return (chars s)
  | _ => Raise TypeError
  end.

(** ** Numbers *)

(** Conversion of an [int] to a [float]: round to nearest, ties to even;
    [OverflowError] when the result is out of range. *)
Definition float_of_int (z : Z) : res float :=
  let f := SF2Prim (binary_normalize prec emax z 0 false) in
  if is_infinity f then Raise OverflowError else Return f.

(** What a function of the [math] module does to its argument. *)
Definition as_double (v : pyval) : res float :=
  match v with
  | VFloat f => Return f
  | VInt z => float_of_int z
  | VBool b => Return (if b then 1%float else 0%float)
  | _ => Raise TypeError
  end.

Definition as_int (v : pyval) : option Z :=
  match v with
  | VInt z => Some z
  | VBool b => Some (if b then 1 else 0)
  | _ => None
  end.

(** [a - b]. *)
Definition py_sub (a b : pyval) : res pyval :=
  match as_int a, as_int b with
  | Some x, Some y => Return (VInt (x - y))
  | _, _ =>
    match a, b with
    | (VFloat _ | VInt _ | VBool _), (VFloat _ | VInt _ | VBool _) =>
      (x <~ as_double a; y <~ as_double b; Return (VFloat (x - y)%float))%res
    | _, _ => Raise TypeError
    end
  end.

Definition pi : float := 0x1.921fb54442d18p+1%float.
Definition degToRad : float := (pi / 180)%float.

(** [math.radians]. *)
Definition math_radians (v : pyval) : res float :=
  (x <~ as_double v; Return (x * degToRad)%float)%res.

(** [math.sqrt]: the correctly rounded square root, a domain error below 0. *)
Definition math_sqrt (x : float) : res float :=
  if (x <? 0)%float then Raise ValueError else Return (PrimFloat.sqrt x).

(** The rest of the numerics comes from the C library. *)
Record MathModule := {
  math_sin : float → res float;
  math_cos : float → res float;
  math_atan2 : float → float → res float;
  float_pow : float → float → res float;   (* x ** y *)
}.

(** ** Data model *)

Record Coordinates := {
  lat : pyval;
  lng : pyval;
}.

(** The fields are filled from decoded JSON, so they hold arbitrary values;
    [distance_miles] is written by the ranking code only, with a float. *)
Record OutageEvent := {
  id : pyval;
  identifier : pyval;
  title : pyval;
  status : pyval;
  cause : pyval;
  num_people : pyval;
  start_time : pyval;
  last_updated_time : pyval;
  latitude : pyval;
  longitude : pyval;
  distance_miles : option float;
}.

Definition set_distance_miles (e : OutageEvent) (d : option float) : OutageEvent :=
  {| id := id e; identifier := identifier e; title := title e;
     status := status e; cause := cause e; num_people := num_people e;
     start_time := start_time e; last_updated_time := last_updated_time e;
     latitude := latitude e; longitude := longitude e;
     distance_miles := d |}.

Definition opt_float (d : option float) : pyval :=
  match d with
  | Some f => VFloat f
  | None => VNone
  end.

Definition to_dict (self : OutageEvent) : pyval :=
  VDict (list_to_map [
    ("id", id self);
    ("identifier", identifier self);
    ("title", title self);
    ("status", status self);
    ("cause", cause self);
    ("num_people", num_people self);
    ("start_time", start_time self);
    ("last_updated_time", last_updated_time self);
    ("latitude", latitude self);
    ("longitude", longitude self);
    ("distance_miles", opt_float (distance_miles self))
  ]).

(** ** State, effects and the outside world *)

(** A reference to an event object. *)
Definition loc := positive.

Inductive call :=
  | HttpGet (url : string) (params : list (string * string)).

Record state := {
  heap : gmap loc OutageEvent;
  calls : list call;          (* outbound requests, oldest first *)
}.

Definition M (A : Type) : Type := state → res A * state.

Definition ret {A} (a : A) : M A := λ s, (Return a, s).
Definition raise {A} (e : exn) : M A := λ s, (Raise e, s).
Definition lift {A} (r : res A) : M A := λ s, (r, s).

Definition bind {A B} (m : M A) (k : A → M B) : M B :=
  λ s, match m s with
       | (Return a, s') => k a s'
       | (Raise e, s') => (Raise e, s')
       end.

Declare Scope M_scope.
Delimit Scope M_scope with M.
Notation "x <- m ;; k" := (bind m (fun x => k))
  (at level 100, m at next level, right associativity,
   format "'[v' x  <-  m  ;;  '/' k ']'") : M_scope.
Notation "m ;; k" := (bind m (fun _ => k))
  (at level 100, right associativity) : M_scope.

(** [try: body  except <caught>: handler]. *)
Definition try_except {A} (body : M A) (caught : exn → bool) (handler : M A) : M A :=
  λ s, match body s with
       | (Raise e, s') => if caught e then handler s' else (Raise e, s')
       | r => r
       end.

(** [for x in l: body x]. *)
Fixpoint for_each {A} (l : list A) (body : A → M unit) : M unit :=
  match l with
  | [] => ret tt
  | x :: l' => (body x ;; for_each l' body)%M
  end.

Definition get_heap : M (gmap loc OutageEvent) := λ s, (Return (heap s), s).

Definition put_heap (h : gmap loc OutageEvent) : M unit :=
  λ s, (Return tt, {| heap := h; calls := calls s |}).

(** Creation of an event object. *)
Definition new_event (e : OutageEvent) : M loc :=
  (h <- get_heap ;;
   let l := fresh (dom h) in
   put_heap (<[l := e]> h) ;;
   ret l)%M.

(** What is on the other side of an HTTP request. A payload is described
    by what the decoder behind [resp.json()] does with it: it raises
    [JSONDecodeError] on text that is not a JSON document, it may raise
    something else on text that is one ([ValueError] on an integer literal
    of more than 4300 digits, [RecursionError] on arrays or objects nested
    too deep), or it returns the decoded document. *)
Inductive body :=
  | NotJson               (* resp.json() raises JSONDecodeError *)
  | Refused (e : exn)     (* resp.json() raises [e] *)
  | Json (v : pyval).     (* resp.json() returns [v] *)

Inductive reply :=
  | NoReply                          (* connection error or time-out *)
  | Reply (status_code : Z) (b : body).

Record World := {
  nes_api : reply;
  census_geocoder : string → reply;   (* by queried address *)
}.

Record Response := {
  status_code : Z;
  payload : body;
}.

Definition log_call (c : call) (s : state) : state :=
  {| heap := heap s; calls := calls s ++ [c] |}.

(** [requests.get(url, params=..., timeout=10)] answered by [r]. *)
Definition requests_get (r : reply) (url : string) (params : list (string * string))
    : M Response :=
  λ s, match r with
       | NoReply => (Raise ConnectionError, log_call (HttpGet url params) s)
       | Reply st b =>
         (Return {| status_code := st; payload := b |}, log_call (HttpGet url params) s)
       end.

Definition raise_for_status (resp : Response) : M unit :=
  if (400 <=? status_code resp) && (status_code resp <? 600)
  then raise HTTPError else ret tt.

Definition json (resp : Response) : M pyval :=
  match payload resp with
  | NotJson => raise JSONDecodeError
  | Refused e => raise e
  | Json v => ret v
  end.

(** ** nes_service.py *)

Definition NES_API_URL : string :=
  "https://utilisocial.io/datacapable/v2/p/NES/map/events".
Definition CENSUS_GEOCODER_URL : string :=
  "https://geocoding.geo.census.gov/geocoder/locations/onelineaddress".

(** [sorted(l, key=key)] as CPython does it ([list.sort] in
    [Objects/listobject.c], version 3.11). The keys are computed once and
    compared with [<] only, which on floats is the comparison of IEEE 754.
    The run that starts the list is found, and the elements behind it are
    put into place one by one, each by a binary search. On a list of fewer
    than 64 elements this is the whole of the algorithm. A list of 64
    elements or more is cut into pieces that are sorted in this way and then
    merged; on keys without NaN the result is again the list given here,
    since [<] is then a strict weak order and a list has one stable
    arrangement in the order of its keys ([sorted_stable_sort]). With a NaN
    among the keys of a list of 64 elements or more the order that the
    merges produce is not modelled; the properties of the order below are
    stated for keys without NaN or for a concrete short list. *)

(** [count_run], from the second element on: the number of elements that
    continue the run, non-descending, or descending in the strict sense. *)
Fixpoint run_tail {A} (key : A → float) (descending : bool) (prev : A)
    (l : list A) : nat :=
  match l with
  | [] => 0
  | x :: l' =>
    if Bool.eqb (key x <? key prev)%float descending
    then S (run_tail key descending x l')
    else 0
  end.

(** The length of the run that starts [l], and whether it descends. *)
Definition count_run {A} (key : A → float) (l : list A) : nat * bool :=
  match l with
  | x :: (y :: _) as l' =>
    let descending := (key y <? key x)%float in
    (S (run_tail key descending x l'), descending)
  | _ => (length l, false)
  end.

(** The search of [binarysort] for the place of [pivot] in [a[l:r]]; the
    interval shrinks at every step, so that [r - l] steps are enough. *)
Fixpoint bisect {A} (key : A → float) (a : list A) (pivot : A)
    (steps l r : nat) : nat :=
  match steps with
  | O => l
  | S steps' =>
    if (l <? r)%nat then
      let p := (l + (r - l) / 2)%nat in
      match a !! p with
      | Some y =>
        if (key pivot <? key y)%float
        then bisect key a pivot steps' l p
        else bisect key a pivot steps' (S p) r
      | None => l
      end
    else l
  end.

Definition binary_insert {A} (key : A → float) (a : list A) (pivot : A)
    : list A :=
  let l := bisect key a pivot (length a) 0 (length a) in
  take l a ++ pivot :: drop l a.

(** [binarysort]: [run] is in order, the elements of [rest] follow it. *)
Definition binarysort {A} (key : A → float) (run rest : list A) : list A :=
  foldl (binary_insert key) run rest.

Definition sorted {A} (l : list A) (key : A → float) : list A :=
  let '(n, descending) := count_run key l in
  let run := take n l in
  binarysort key (if descending then reverse run else run) (drop n l).

(** [l[:stop]]: a negative [stop] counts from the end. *)
Definition slice_to {A} (l : list A) (stop : Z) : list A :=
  if stop <? 0
  then take (Z.to_nat (Z.of_nat (length l) + stop)) l
  else take (Z.to_nat stop) l.

(** [d or float('inf')]. *)
Definition or_inf (d : option float) : float :=
  match d with
  | Some f => if float_truthy f then f else infinity
  | None => infinity
  end.

Section service.
Context (mm : MathModule) (w : World).

Definition geocode_address (address : string) : M (option Coordinates) :=
  let params := [("address", address);
                 ("benchmark", "Public_AR_Current");
                 ("format", "json")] in
  try_except
    (resp <- requests_get (census_geocoder w address) CENSUS_GEOCODER_URL params ;;
     raise_for_status resp ;;
     data <- json resp ;;
     result <- lift (py_get data "result" (VDict ∅)) ;;
     matches <- lift (py_get result "addressMatches" (VList [])) ;;
     if negb (truthy matches) then ret None
     else
       first <- lift (py_getitem0 matches) ;;
       coords <- lift (py_get first "coordinates" (VDict ∅)) ;;
       y <- lift (py_get coords "y" VNone) ;;
       x <- lift (py_get coords "x" VNone) ;;
       ret (Some {| lat := y; lng := x |}))%M
    (λ e, is_RequestException e
          || match e with KeyError | IndexError => true | _ => false end)
    (ret None).

Definition haversine_miles (lat1 lng1 lat2 lng2 : pyval) : res float :=
  let R := 3959%float in
  (lat1_rad <~ math_radians lat1;
   lat2_rad <~ math_radians lat2;
   dlat <~ py_sub lat2 lat1;
   delta_lat <~ math_radians dlat;
   dlng <~ py_sub lng2 lng1;
   delta_lng <~ math_radians dlng;
   s1 <~ math_sin mm (delta_lat / 2)%float;
   p1 <~ float_pow mm s1 2%float;
   c1 <~ math_cos mm lat1_rad;
   c2 <~ math_cos mm lat2_rad;
   s2 <~ math_sin mm (delta_lng / 2)%float;
   p2 <~ float_pow mm s2 2%float;
   let a := (p1 + c1 * c2 * p2)%float in
   q1 <~ math_sqrt a;
   q2 <~ math_sqrt (1 - a)%float;
   t <~ math_atan2 mm q1 q2;
   let c := (2 * t)%float in
   Return (R * c)%float)%res.

Definition event_of_item (item : pyval) : res OutageEvent :=
  (v_id <~ py_get item "id" VNone;
   v_identifier <~ py_get item "identifier" VNone;
   v_title <~ py_get item "title" (VStr "");
   v_status <~ py_get item "status" (VStr "");
   v_cause <~ py_get item "cause" VNone;
   v_num_people <~ py_get item "numPeople" (VInt 0);
   v_start_time <~ py_get item "startTime" (VInt 0);
   v_last_updated_time <~ py_get item "lastUpdatedTime" (VInt 0);
   v_latitude <~ py_get item "latitude" (VInt 0);
   v_longitude <~ py_get item "longitude" (VInt 0);
   Return {| id := v_id; identifier := v_identifier; title := v_title;
             status := v_status; cause := v_cause; num_people := v_num_people;
             start_time := v_start_time;
             last_updated_time := v_last_updated_time;
             latitude := v_latitude; longitude := v_longitude;
             distance_miles := None |})%res.

(** The loop of [fetch_nes_events], [events] being the list built so far. *)
Fixpoint append_events (items : list pyval) (events : list loc) : M (list loc) :=
  match items with
  | [] => ret events
  | item :: rest =>
    (e <- lift (event_of_item item) ;;
     l <- new_event e ;;
     append_events rest (events ++ [l]))%M
  end.

Definition fetch_nes_events : M (list loc) :=
  try_except
    (resp <- requests_get (nes_api w) NES_API_URL [] ;;
     raise_for_status resp ;;
     data <- json resp ;;
     items <- lift (py_iter data) ;;
     append_events items [])%M
    is_RequestException
    (ret []).

(** [event.distance_miles = haversine_miles(...)] on the object behind
    [event]. A reference held by a list is never dangling; the [None]
    branch only makes the function total. *)
Definition annotate (coords : Coordinates) (event : loc) : M unit :=
  (h <- get_heap ;;
   match h !! event with
   | None => ret tt
   | Some e =>
     d <- lift (haversine_miles (lat coords) (lng coords)
                                (latitude e) (longitude e)) ;;
     put_heap (<[event := set_distance_miles e (Some d)]> h)
   end)%M.

Definition sort_key (h : gmap loc OutageEvent) (event : loc) : float :=
  or_inf (h !! event ≫= distance_miles).

Definition find_nearest_events (coords : Coordinates) (limit : Z)
    (events : option (list loc)) : M (list loc) :=
  (events <- match events with
             | None => fetch_nes_events
             | Some l => ret l
             end ;;
   for_each events (annotate coords) ;;
   h <- get_heap ;;
   let sorted_events := sorted events (sort_key h) in
   ret (slice_to sorted_events limit))%M.

Definition find_nearest_by_address (address : string) (limit : Z) : M pyval :=
  (coords <- geocode_address address ;;
   match coords with
   | None =>
     ret (VDict (list_to_map [
            ("error", VStr "Could not geocode address");
            ("query_address", VStr address)]))
   | Some coords =>
     events <- find_nearest_events coords limit None ;;
     h <- get_heap ;;
     ret (VDict (list_to_map [
            ("query_address", VStr address);
            ("coordinates",
             VDict (list_to_map [("lat", lat coords); ("lng", lng coords)]));
            ("events", VList (omap (λ e, to_dict <$> h !! e) events))]))
   end)%M.

End service.

(** ** server.py *)

Section server.
Context (mm : MathModule) (w : World).
(** [int(s)] on a string, a builtin: the number, or [None] for
    [ValueError]. *)
Context (int_of_str : string → option Z).

(** A handler gets the query parameters and returns a body and a status. *)
Definition jsonify (fields : list (string * pyval)) : pyval :=
  VDict (list_to_map fields).

(** [request.args.get(key)]: the value is a string, or [None]. *)
Definition args_get (args : gmap string string) (key : string) : pyval :=
  from_option VStr VNone (args !! key).

Definition str_of (v : pyval) : string :=
  match v with
  | VStr s => s
  | _ => ""
  end.

Definition py_in (key : string) (obj : pyval) : bool :=
  match obj with
  | VDict d => bool_decide (is_Some (d !! key))
  | _ => false
  end.

Definition health : M (pyval * Z) :=
  ret (jsonify [("status", VStr "ok")], 200).

Definition events : M (pyval * Z) :=
  (events <- fetch_nes_events w ;;
   h <- get_heap ;;
   ret (jsonify [("count", VInt (Z.of_nat (length events)));
                 ("events", VList (omap (λ e, to_dict <$> h !! e) events))],
        200))%M.

(** Past the test [if not address] the address is a non-empty string. *)
Definition nearest (args : gmap string string) : M (pyval * Z) :=
  let address := args_get args "address" in
  if negb (truthy address) then
    ret (jsonify [("error", VStr "Missing required 'address' parameter")], 400)
  else
    match (match args !! "limit" with
           | Some s => int_of_str s
           | None => Some 5
           end) with
    | None =>
      ret (jsonify [("error", VStr "Invalid 'limit' parameter")], 400)
    | Some limit =>
      (result <- find_nearest_by_address mm w (str_of address) limit ;;
       if py_in "error" result then ret (result, 404)
       else ret (result, 200))%M
    end.

Definition geocode (args : gmap string string) : M (pyval * Z) :=
  let address := args_get args "address" in
  if negb (truthy address) then
    ret (jsonify [("error", VStr "Missing required 'address' parameter")], 400)
  else
    (coords <- geocode_address w (str_of address) ;;
     match coords with
     | None => ret (jsonify [("error", VStr "Could not geocode address")], 404)
     | Some coords =>
       ret (jsonify [("address", address);
                     ("coordinates",
                      VDict (list_to_map [("lat", lat coords);
                                          ("lng", lng coords)]))],
            200)
     end)%M.

End server.

(** * Vocabulary of the properties *)

(** ** Requests and replies *)

Definition geocoder_call (address : string) : call :=
  HttpGet CENSUS_GEOCODER_URL
    [("address", address); ("benchmark", "Public_AR_Current"); ("format", "json")].

Definition feed_call : call := HttpGet NES_API_URL [].

(** The statuses on which [raise_for_status] raises. *)
Definition error_status (st : Z) : Prop := 400 ≤ st < 600.

(** The replies that the result policy of the geocoding client names, with
    the result it gives for each. *)
Inductive geocoder_policy : reply → option Coordinates → Prop :=
  | network_failure :
      geocoder_policy NoReply None
  | non_success_status st b :
      error_status st →
      geocoder_policy (Reply st b) None
  | malformed_json st :
      geocoder_policy (Reply st NotJson) None
  | empty_match_list st d r :
      d !! "result" = Some (VDict r) →
      r !! "addressMatches" = Some (VList []) →
      geocoder_policy (Reply st (Json (VDict d))) None
  | first_match st d r m others c x y :
      ¬ error_status st →
      d !! "result" = Some (VDict r) →
      r !! "addressMatches" = Some (VList (VDict m :: others)) →
      m !! "coordinates" = Some (VDict c) →
      c !! "y" = Some y →
      c !! "x" = Some x →
      geocoder_policy (Reply st (Json (VDict d))) (Some {| lat := y; lng := x |}).

(** Network failure, 4xx or 5xx status, or a body that the decoder rejects
    with [JSONDecodeError]. *)
Definition feed_unavailable (r : reply) : Prop :=
  match r with
  | NoReply => True
  | Reply st b => error_status st ∨ b = NotJson
  end.

Definition is_object (v : pyval) : Prop := ∃ d, v = VDict d.

Definition to_dicts (h : gmap loc OutageEvent) (events : list loc) : list pyval :=
  omap (λ e, to_dict <$> h !! e) events.

Definition missing_address : pyval * Z :=
  (VDict {[ "error" := VStr "Missing required 'address' parameter" ]}, 400).

(** ** Distance *)

(** [sin(radians(d) / 2) ** 2], the haversine of an angle of [d] degrees. *)
Definition haversine (mm : MathModule) (d : float) : res float :=
  (s <~ math_sin mm (d * degToRad / 2)%float; float_pow mm s 2%float)%res.

(** ** Ranking *)

Definition distance_from (mm : MathModule) (coords : Coordinates) (e : OutageEvent)
    : res float :=
  haversine_miles mm (lat coords) (lng coords) (latitude e) (longitude e).

(** [h'] is [h] after the loop over [events]: the objects behind [events]
    carry their distance from [coords], all else is as it was. *)
Definition annotated (mm : MathModule) (coords : Coordinates) (events : list loc)
    (h h' : gmap loc OutageEvent) : Prop :=
  ∀ l, match h !! l with
       | None => h' !! l = None
       | Some e =>
         if decide (l ∈ events)
         then ∃ d, distance_from mm coords e = Return d ∧
                   h' !! l = Some (set_distance_miles e (Some d))
         else h' !! l = Some e
       end.


(** The elements whose key is [==] to [k]. *)
Definition keyed {A} (key : A → float) (k : float) (x : A) : Prop :=
  (key x =? k)%float = true.

#[global] Instance keyed_dec {A} (key : A → float) k x : Decision (keyed key k x).
Proof. unfold keyed. apply _. Defined.

(** [a] may stand before [b] in a list sorted by [key]: the key of [b] is
    not below the key of [a]. *)
Definition key_le {A} (key : A → float) (a b : A) : Prop :=
  (key b <? key a)%float = false.

(** The key of [a] is below the key of [b]. *)
Definition key_lt {A} (key : A → float) (a b : A) : Prop :=
  (key a <? key b)%float = true.

(** No key is NaN. *)
Definition no_nan {A} (key : A → float) (l : list A) : Prop :=
  Forall (λ x, is_nan (key x) = false) l.

(** The distance that an event object carries in heap [h]. *)
Definition distance_in (h : gmap loc OutageEvent) (event : loc) : option float :=
  h !! event ≫= distance_miles.

(** [==] on floats identifies the two zeros and nothing else. *)
Definition unsigned_zero (x : spec_float) : spec_float :=
  match x with
  | S754_zero _ => S754_zero false
  | _ => x
  end.

(** The place of a number in the order of [<]: the sign class, then the
    exponent, then the mantissa, the last two counted downwards for the
    negative numbers. *)
Definition float_code (x : spec_float) : Z * Z * Z :=
  match x with
  | S754_zero _ | S754_nan => (0, 0, 0)
  | S754_infinity s => (if s then -2 else 2, 0, 0)
  | S754_finite s m e => if s then (-1, - e, Z.neg m) else (1, e, Z.pos m)
  end.

Definition code_lt (c c' : Z * Z * Z) : Prop :=
  c.1.1 < c'.1.1 ∨
  c.1.1 = c'.1.1 ∧ (c.1.2 < c'.1.2 ∨ c.1.2 = c'.1.2 ∧ c.2 < c'.2).

Definition fcode (x : float) : Z * Z * Z := float_code (Prim2SF x).

(** ** Sample data *)

Definition half_pi : float := (pi / 2)%float.

(** What the examples need of the C library: the results that the C
    standard (Annex F.10) fixes for [sin], [cos], [atan2] and [pow] at the
    arguments 0 and 1, and the sine of the double nearest to pi/2, which is
    1 to within 2e-33. *)
Record standard_values (mm : MathModule) : Prop := {
  sin_zero : math_sin mm 0%float = Return 0%float;
  sin_half_pi : math_sin mm half_pi = Return 1%float;
  cos_zero : math_cos mm 0%float = Return 1%float;
  atan2_zero_one : math_atan2 mm 0%float 1%float = Return 0%float;
  atan2_one_zero : math_atan2 mm 1%float 0%float = Return half_pi;
  pow_zero_two : float_pow mm 0%float 2%float = Return 0%float;
  pow_one_two : float_pow mm 1%float 2%float = Return 1%float;
}.

(** A math module with these values, squaring for [x ** 2], and no entry
    anywhere else: a look-up without entry raises. *)
Definition table_math : MathModule := {|
  math_sin x :=
    if (x =? 0)%float then Return x
    else if (x =? half_pi)%float then Return 1%float
    else Raise ValueError;
  math_cos x :=
    if (x =? 0)%float then Return 1%float else Raise ValueError;
  math_atan2 y x :=
    if ((y =? 0) && (x =? 1))%float then Return y
    else if ((y =? 1) && (x =? 0))%float then Return half_pi
    else Raise ValueError;
  float_pow x y :=
    if (y =? 2)%float then Return (x * x)%float else Raise ValueError;
|}.

(** What the symmetry of the distance needs of the C library: its sine is
    odd, its square is even, and its cosine fails in one way only, the
    [ValueError] that Python makes of a domain error. *)
Record sign_symmetry (mm : MathModule) : Prop := {
  sin_odd : ∀ x, math_sin mm (- x)%float
                 = (y <~ math_sin mm x; Return (- y)%float)%res;
  pow_even : ∀ x, float_pow mm (- x)%float 2%float = float_pow mm x 2%float;
  cos_error : ∀ x e, math_cos mm x = Raise e → e = ValueError;
}.

(** [table_math] with the entry that the oddness of the sine adds. *)
Definition mirror_math : MathModule := {|
  math_sin x :=
    if (x =? 0)%float then Return x
    else if (x =? half_pi)%float then Return 1%float
    else if (x =? - half_pi)%float then Return (-1)%float
    else Raise ValueError;
  math_cos := math_cos table_math;
  math_atan2 := math_atan2 table_math;
  float_pow := float_pow table_math;
|}.

Definition event_at (n : Z) (la lo : float) : OutageEvent :=
  {| id := VInt n; identifier := VStr "NES"; title := VStr "Outage";
     status := VStr "Active"; cause := VNone; num_people := VInt 12;
     start_time := VInt 1700000000; last_updated_time := VInt 1700000600;
     latitude := VFloat la; longitude := VFloat lo;
     distance_miles := None |}.

Definition origin : Coordinates := {| lat := VFloat 0; lng := VFloat 0 |}.

(** The distance from [origin] to the point at longitude 180 on the
    equator: half the circumference, 3959 * pi miles. *)
Definition half_way_round : float := (3959 * (2 * half_pi))%float.

(** Two events: the first at the reference point, the second on the far
    side of the globe. *)
Definition two_events : state :=
  {| heap := <[1%positive := event_at 1 0 0]>
             (<[2%positive := event_at 2 0 180]> ∅);
     calls := [] |}.




(** Three events, the last two at the same place. *)
Definition three_events : state :=
  {| heap := <[1%positive := event_at 1 0 0]>
             (<[2%positive := event_at 2 0 180]>
             (<[3%positive := event_at 3 0 180]> ∅));
     calls := [] |}.

Definition idle : state := {| heap := ∅; calls := [] |}.

Definition quiet_world : World :=
  {| nes_api := NoReply; census_geocoder := λ _, NoReply |}.

(** A geocoder that knows one address, with two candidate matches, and
    an outage feed with three records, the last one without a position. *)
Definition match_at (x y : float) : pyval :=
  VDict {[ "matchedAddress" := VStr "0 MERIDIAN RD";
           "coordinates" := VDict {[ "x" := VFloat x; "y" := VFloat y ]} ]}.

Definition sample_geocoder (address : string) : reply :=
  if String.eqb address "0 Meridian Rd" then
    Reply 200 (Json (VDict {[ "result" :=
      VDict {[ "addressMatches" := VList [match_at 0 0; match_at 180 0] ]} ]}))
  else if String.eqb address "nowhere" then
    Reply 200 (Json (VDict {[ "result" :=
      VDict {[ "addressMatches" := VList [] ]} ]}))
  else if String.eqb address "no coordinates" then
    Reply 200 (Json (VDict {[ "result" :=
      VDict {[ "addressMatches" :=
        VList [VDict {[ "matchedAddress" := VStr "?" ]}] ]} ]}))
  else NoReply.

(** A geocoder that answers every address with status [st] and one match,
    at latitude 0 and longitude 0. *)
Definition status_geocoder (st : Z) : World :=
  {| nes_api := NoReply;
     census_geocoder := λ _, Reply st (Json (VDict {[ "result" :=
       VDict {[ "addressMatches" := VList [match_at 0 0] ]} ]})) |}.

Definition feed_item (n : Z) (x y : float) : pyval :=
  VDict {[ "id" := VInt n; "identifier" := VStr "NES"; "title" := VStr "Outage";
           "status" := VStr "Active"; "numPeople" := VInt 12;
           "startTime" := VInt 1700000000;
           "lastUpdatedTime" := VInt 1700000600;
           "latitude" := VFloat y; "longitude" := VFloat x ]}.

Definition sample_items : list pyval :=
  [feed_item 1 180 0; feed_item 2 0 0; VDict {[ "id" := VInt 3 ]}].

Definition sample_world : World :=
  {| nes_api := Reply 200 (Json (VList sample_items));
     census_geocoder := sample_geocoder |}.

(** The feed answers 200 with the JSON document [null]. *)
Definition null_feed : World :=
  {| nes_api := Reply 200 (Json VNone); census_geocoder := sample_geocoder |}.

Definition empty_address_args : gmap string string :=
  {[ "address" := ""; "limit" := "3" ]}.

(** ** Further vocabulary *)

(** The values that arithmetic accepts: [int], [float] and [bool]. *)
Definition is_number (v : pyval) : Prop :=
  match v with
  | VInt _ | VFloat _ | VBool _ => True
  | _ => False
  end.



(** An event whose record came with [null] for its position. *)
Definition unlocated_event (n : Z) : OutageEvent :=
  {| id := VInt n; identifier := VStr "NES"; title := VStr "Outage";
     status := VStr "Active"; cause := VNone; num_people := VInt 12;
     start_time := VInt 1700000000; last_updated_time := VInt 1700000600;
     latitude := VNone; longitude := VNone;
     distance_miles := None |}.

(** An event on the far side of the globe, then one without position,
    then one at the reference point. *)
Definition with_unlocated : state :=
  {| heap := <[2%positive := event_at 2 0 180]>
             (<[4%positive := unlocated_event 4]>
             (<[1%positive := event_at 1 0 0]> ∅));
     calls := [] |}.

(** The state in which ranking [events] from [origin] leaves [s]. *)
Definition ranked (events : list loc) (s : state) : state :=
  snd (find_nearest_events table_math quiet_world origin 0 (Some events) s).

(** [l] refers in [h] to the event read from [item]. *)
Definition holds_item (h : gmap loc OutageEvent) (l : loc) (item : pyval) : Prop :=
  ∃ e, event_of_item item = Return e ∧ h !! l = Some e.

(** Every object of [h] is in [h'], unchanged. *)
Definition keeps (h h' : gmap loc OutageEvent) : Prop :=
  ∀ l e, h !! l = Some e → h' !! l = Some e.

Definition invalid_limit : pyval * Z :=
  (VDict {[ "error" := VStr "Invalid 'limit' parameter" ]}, 400).

Definition not_geocoded : pyval * Z :=
  (VDict {[ "error" := VStr "Could not geocode address" ]}, 404).

(** A feed that is down behind the sample geocoder. *)
Definition feed_down : World :=
  {| nes_api := Reply 503 NotJson; census_geocoder := sample_geocoder |}.

(** Both services answer 200 with a body on which the decoder raises
    [ValueError], as it does on an integer literal of 5000 digits. *)
Definition long_number_world : World :=
  {| nes_api := Reply 200 (Refused ValueError);
     census_geocoder := λ _, Reply 200 (Refused ValueError) |}.

Definition bad_limit_args : gmap string string :=
  {[ "address" := "0 Meridian Rd"; "limit" := "many" ]}.

Definition address_args : gmap string string :=
  {[ "address" := "0 Meridian Rd" ]}.

(** [int] on the strings of the examples. *)
Definition sample_int (s : string) : option Z :=
  if String.eqb s "5" then Some 5
  else if String.eqb s "3" then Some 3
  else None.

(** * Lemmas *)

(** ** Status check *)

Lemma raise_for_status_error st b s :
  error_status st →
  raise_for_status {| status_code := st; payload := b |} s = (Raise HTTPError, s).
Proof.
  intros [H1 H2]. unfold raise_for_status; simpl.
  apply Z.leb_le in H1. apply Z.ltb_lt in H2. by rewrite H1, H2.
Qed.

Lemma raise_for_status_ok st b s :
  ¬ error_status st →
  raise_for_status {| status_code := st; payload := b |} s = (Return tt, s).
Proof.
  intros H. unfold raise_for_status; simpl.
  destruct (400 <=? st) eqn:H1; [|done].
  destruct (st <? 600) eqn:H2; [|done].
  exfalso. apply H. split; [by apply Z.leb_le | by apply Z.ltb_lt].
Qed.

(** ** Comparison of floats *)

Lemma SFcompare_Eq (x y : spec_float) :
  SFcompare x y = Some Eq ↔ unsigned_zero x = unsigned_zero y ∧ x ≠ S754_nan.
Proof.
  split.
  - destruct x as [sx|sx| |sx mx ex], y as [sy|sy| |sy my ey]; simpl;
      try destruct sx; try destruct sy; try done.
    + destruct (Z.compare_spec ex ey) as [->| |]; try done.
      change (Pos.compare_cont Eq mx my) with (mx ?= my)%positive.
      destruct (Pos.compare_spec mx my) as [->| |]; done.
    + destruct (Z.compare_spec ex ey) as [->| |]; try done.
      change (Pos.compare_cont Eq mx my) with (mx ?= my)%positive.
      destruct (Pos.compare_spec mx my) as [->| |]; done.
  - intros [H Hnan].
    destruct x as [sx|sx| |sx mx ex], y as [sy|sy| |sy my ey]; simpl in *;
      try done; simplify_eq.
    + by destruct sy.
    + change (Pos.compare_cont Eq my my) with (my ?= my)%positive.
      rewrite Z.compare_refl, Pos.compare_refl. by destruct sy.
Qed.

Lemma float_eqb_Eq (x y : float) :
  (x =? y)%float = true ↔ SFcompare (Prim2SF x) (Prim2SF y) = Some Eq.
Proof.
  rewrite FloatAxioms.eqb_spec. unfold SFeqb.
  destruct (SFcompare _ _) as [[]|]; naive_solver.
Qed.

Lemma float_eqb_sym (x y : float) :
  (x =? y)%float = true → (y =? x)%float = true.
Proof.
  rewrite !float_eqb_Eq, !SFcompare_Eq. intros [H Hx]. split; [done|].
  intros Hy. rewrite Hy in H. by destruct (Prim2SF x).
Qed.

Lemma float_eqb_trans (x y z : float) :
  (x =? y)%float = true → (y =? z)%float = true → (x =? z)%float = true.
Proof.
  rewrite !float_eqb_Eq, !SFcompare_Eq. intros [H1 Hx] [H2 Hy].
  split; [congruence | done].
Qed.

Lemma float_eqb_not_ltb (x y : float) :
  (x =? y)%float = true → (x <? y)%float = false.
Proof.
  rewrite float_eqb_Eq, FloatAxioms.ltb_spec. unfold SFltb. by intros ->.
Qed.

Lemma SFcompare_antisym (x y : spec_float) :
  SFcompare y x = CompOpp <$> SFcompare x y.
Proof.
  destruct x as [sx|sx| |sx mx ex], y as [sy|sy| |sy my ey]; simpl;
    try destruct sx; try destruct sy; try done.
  - rewrite (Z.compare_antisym ex ey).
    change (Pos.compare_cont Eq my mx) with (my ?= mx)%positive.
    change (Pos.compare_cont Eq mx my) with (mx ?= my)%positive.
    rewrite (Pos.compare_antisym mx my).
    destruct (ex ?= ey); simpl; [|done..]. by rewrite CompOpp_involutive.
  - rewrite (Z.compare_antisym ex ey).
    change (Pos.compare_cont Eq my mx) with (my ?= mx)%positive.
    change (Pos.compare_cont Eq mx my) with (mx ?= my)%positive.
    rewrite (Pos.compare_antisym mx my).
    by destruct (ex ?= ey).
Qed.

Lemma float_ltb_asym (x y : float) :
  (x <? y)%float = true → (y <? x)%float = false.
Proof.
  rewrite !FloatAxioms.ltb_spec. unfold SFltb.
  rewrite (SFcompare_antisym (Prim2SF x) (Prim2SF y)).
  by destruct (SFcompare (Prim2SF x) (Prim2SF y)) as [[]|].
Qed.

(** ** The order of [<] *)

Lemma is_nan_false (x : float) : is_nan x = false ↔ Prim2SF x ≠ S754_nan.
Proof.
  unfold is_nan. rewrite negb_false_iff, float_eqb_Eq, SFcompare_Eq.
  split; [by intros [_ ?] | done].
Qed.

Lemma SFcompare_code (x y : spec_float) :
  x ≠ S754_nan → y ≠ S754_nan →
  (SFcompare x y = Some Lt ↔ code_lt (float_code x) (float_code y)) ∧
  (SFcompare x y = Some Eq ↔ float_code x = float_code y).
Proof.
  intros Hx Hy. unfold code_lt.
  destruct x as [sx|sx| |sx mx ex], y as [sy|sy| |sy my ey]; try done;
    try destruct sx; try destruct sy; simpl.
  all: try (destruct (Z.compare_spec ex ey) as [->| |]).
  all: try (change (Pos.compare_cont Eq mx my) with (mx ?= my)%positive;
            destruct (Pos.compare_spec mx my) as [->| |]; simpl).
  all: split; (split; [intros ?; first [done | lia]
                      | intros ?; first [done | lia | (simplify_eq; lia)]]).
Qed.

Lemma spec_float_nan (x : spec_float) : x = S754_nan ∨ x ≠ S754_nan.
Proof. destruct x; auto. Qed.

Lemma float_ltb_code (x y : float) :
  (x <? y)%float = true ↔
  is_nan x = false ∧ is_nan y = false ∧ code_lt (fcode x) (fcode y).
Proof.
  rewrite FloatAxioms.ltb_spec, !is_nan_false. unfold SFltb, fcode.
  destruct (spec_float_nan (Prim2SF x)) as [Hx|Hx].
  { rewrite Hx. simpl. split; [done | by intros [? _]]. }
  destruct (spec_float_nan (Prim2SF y)) as [Hy|Hy].
  { rewrite Hy. destruct (Prim2SF x); simpl; (split; [done | by intros (_ & ? & _)]). }
  destruct (SFcompare_code _ _ Hx Hy) as [<- _].
  destruct (SFcompare (Prim2SF x) (Prim2SF y)) as [[]|]; split; try done;
    by intros (_ & _ & ?).
Qed.

Lemma float_ltb_trans (x y z : float) :
  (x <? y)%float = true → (y <? z)%float = true → (x <? z)%float = true.
Proof.
  rewrite !float_ltb_code. unfold code_lt.
  intros (? & ? & ?) (? & ? & ?). split_and!; [done..|lia].
Qed.

(** On numbers [not (y < x)] is the order [x <= y]. *)
Lemma float_le_trans (x y z : float) :
  is_nan x = false → is_nan y = false → is_nan z = false →
  (y <? x)%float = false → (z <? y)%float = false → (z <? x)%float = false.
Proof.
  intros Hx Hy Hz Hyx Hzy.
  destruct (z <? x)%float eqn:Hzx; [|done]. exfalso.
  apply float_ltb_code in Hzx as (_ & _ & Hzx).
  assert (¬ code_lt (fcode y) (fcode x)) as H1.
  { intros H. apply not_true_iff_false in Hyx. apply Hyx.
    by apply float_ltb_code. }
  assert (¬ code_lt (fcode z) (fcode y)) as H2.
  { intros H. apply not_true_iff_false in Hzy. apply Hzy.
    by apply float_ltb_code. }
  unfold code_lt in *. lia.
Qed.

Lemma float_lt_le_trans (x y z : float) :
  is_nan z = false →
  (x <? y)%float = true → (z <? y)%float = false → (x <? z)%float = true.
Proof.
  intros Hz Hxy Hzy.
  apply float_ltb_code in Hxy as (Hx & Hy & Hxy).
  assert (¬ code_lt (fcode z) (fcode y)) as H2.
  { intros H. apply not_true_iff_false in Hzy. apply Hzy.
    by apply float_ltb_code. }
  apply float_ltb_code. split_and!; [done..|]. unfold code_lt in *. lia.
Qed.

(** Numbers of which neither is below the other are equal. *)
Lemma float_le_antisym (x y : float) :
  is_nan x = false → is_nan y = false →
  (x <? y)%float = false → (y <? x)%float = false → (x =? y)%float = true.
Proof.
  intros Hx Hy Hxy Hyx.
  assert (¬ code_lt (fcode x) (fcode y)) as H1.
  { intros H. apply not_true_iff_false in Hxy. apply Hxy.
    by apply float_ltb_code. }
  assert (¬ code_lt (fcode y) (fcode x)) as H2.
  { intros H. apply not_true_iff_false in Hyx. apply Hyx.
    by apply float_ltb_code. }
  apply is_nan_false in Hx, Hy.
  apply float_eqb_Eq, (SFcompare_code _ _ Hx Hy).
  unfold fcode, code_lt in *.
  destruct (float_code (Prim2SF x)) as [[a b] c],
           (float_code (Prim2SF y)) as [[a' b'] c']; simpl in *.
  f_equal; [f_equal|]; lia.
Qed.

(** ** Arithmetic of floats *)

Lemma binary_round_aux_opp (s : bool) (m e : Z) (l : location) :
  binary_round_aux prec emax (negb s) m e l
  = SFopp (binary_round_aux prec emax s m e l).
Proof.
  unfold binary_round_aux.
  destruct (shr_fexp prec emax m e l) as [mrs' e'].
  destruct (shr_fexp prec emax _ e' loc_Exact) as [mrs'' e''].
  destruct (shr_m mrs''); [done | | done].
  by destruct (e'' <=? emax - prec).
Qed.

Lemma SFopp_involutive (x : spec_float) : SFopp (SFopp x) = x.
Proof. destruct x; simpl; by rewrite ?negb_involutive. Qed.

Lemma SFmul_opp_l (x y : spec_float) :
  SFmul prec emax (SFopp x) y = SFopp (SFmul prec emax x y).
Proof.
  destruct x as [sx|sx| |sx mx ex], y as [sy|sy| |sy my ey]; simpl;
    try done; try (by destruct sx, sy).
  rewrite <- binary_round_aux_opp. by destruct sx, sy.
Qed.

Lemma SFdiv_opp_l (x y : spec_float) :
  SFdiv prec emax (SFopp x) y = SFopp (SFdiv prec emax x y).
Proof.
  destruct x as [sx|sx| |sx mx ex], y as [sy|sy| |sy my ey]; simpl;
    try done; try (by destruct sx, sy).
  destruct (SFdiv_core_binary prec emax (Z.pos mx) ex (Z.pos my) ey)
    as [[mz ez] lz].
  rewrite <- binary_round_aux_opp. by destruct sx, sy.
Qed.

Lemma SFmul_comm (x y : spec_float) :
  SFmul prec emax x y = SFmul prec emax y x.
Proof.
  destruct x as [sx|sx| |sx mx ex], y as [sy|sy| |sy my ey]; simpl;
    try done; try (by destruct sx, sy).
  by rewrite xorb_comm, Pos.mul_comm, Z.add_comm.
Qed.

Lemma binary_normalize_opp (m e : Z) :
  m ≠ 0 →
  binary_normalize prec emax (- m) e false
  = SFopp (binary_normalize prec emax m e false).
Proof.
  intros Hm. destruct m as [|p|p]; [done | |]; simpl; unfold binary_round;
    destruct (shl_align _ _ _) as [mz ez].
  - apply (binary_round_aux_opp false).
  - rewrite <- (binary_round_aux_opp true). done.
Qed.

(** [y - x] is the opposite of [x - y], unless both are [+0]. *)
Lemma SFsub_swap (x y : spec_float) :
  SFsub prec emax y x = SFopp (SFsub prec emax x y) ∨
  SFsub prec emax x y = S754_zero false ∧ SFsub prec emax y x = S754_zero false.
Proof.
  destruct x as [sx|sx| |sx mx ex], y as [sy|sy| |sy my ey]; simpl;
    try (by left); try (by destruct sx, sy; auto);
    try (left; by rewrite ?negb_involutive).
  rewrite (Z.min_comm ey ex).
  set (a := cond_Zopp sx (Z.pos (shl_align mx ex (ex `min` ey)).1)).
  set (b := cond_Zopp sy (Z.pos (shl_align my ey (ex `min` ey)).1)).
  destruct (decide (a - b = 0)) as [Hz|Hnz].
  - right. rewrite Hz. replace (b - a) with 0 by lia. done.
  - left. replace (b - a) with (- (a - b)) by lia.
    by apply binary_normalize_opp.
Qed.

Lemma float_opp_involutive (x : float) : (- - x)%float = x.
Proof.
  apply Prim2SF_inj. by rewrite !opp_spec, SFopp_involutive.
Qed.

Lemma float_mul_opp_l (x y : float) : (- x * y)%float = (- (x * y))%float.
Proof.
  apply Prim2SF_inj. rewrite opp_spec, !mul_spec, opp_spec. apply SFmul_opp_l.
Qed.

Lemma float_div_opp_l (x y : float) : (- x / y)%float = (- (x / y))%float.
Proof.
  apply Prim2SF_inj. rewrite opp_spec, !div_spec, opp_spec. apply SFdiv_opp_l.
Qed.

Lemma float_mul_comm (x y : float) : (x * y)%float = (y * x)%float.
Proof. apply Prim2SF_inj. rewrite !mul_spec. apply SFmul_comm. Qed.

Lemma float_sub_swap (x y : float) :
  (y - x)%float = (- (x - y))%float ∨
  (x - y)%float = 0%float ∧ (y - x)%float = 0%float.
Proof.
  destruct (SFsub_swap (Prim2SF x) (Prim2SF y)) as [H|[H1 H2]].
  - left. apply Prim2SF_inj. by rewrite opp_spec, !sub_spec.
  - right. split; apply Prim2SF_inj; by rewrite sub_spec.
Qed.

(** A finite float is a zero or has a mantissa and an exponent. *)
Lemma is_finite_spec (x : float) :
  is_finite x = true →
  (∃ s, Prim2SF x = S754_zero s) ∨ ∃ s m e, Prim2SF x = S754_finite s m e.
Proof.
  unfold is_finite, is_infinity, is_nan.
  rewrite negb_true_iff, orb_false_iff, negb_false_iff.
  rewrite !FloatAxioms.eqb_spec, abs_spec. intros [Hnan Hinf].
  destruct (Prim2SF x) as [s|s| |s m e]; [eauto | done | done | eauto 6].
Qed.

Lemma float_sub_diag (x : float) : is_finite x = true → (x - x)%float = 0%float.
Proof.
  intros Hx. apply Prim2SF_inj. rewrite sub_spec.
  destruct (is_finite_spec x Hx) as [[s ->]|(s & m & e & ->)]; simpl.
  - by destruct s.
  - by rewrite Z.sub_diag.
Qed.

(** ** Rounding without overflow *)

Lemma digits2_pos_size (p : positive) : digits2_pos p = Pos.size p.
Proof. induction p as [p IH|p IH|]; simpl; by rewrite ?IH. Qed.

Lemma Zdigits2_log2 (m : Z) : 0 < m → Zdigits2 m = Z.log2 m + 1.
Proof.
  destruct m as [|p|p]; [lia | | lia]. intros _. simpl.
  rewrite digits2_pos_size. destruct p; simpl; lia.
Qed.

Lemma Zdigits2_nonneg (m : Z) : 0 ≤ Zdigits2 m.
Proof. destruct m; simpl; lia. Qed.

Lemma Zdigits2_mono (a b : Z) : 0 ≤ a ≤ b → Zdigits2 a ≤ Zdigits2 b.
Proof.
  intros Hab. destruct (decide (a = 0)) as [->|Ha].
  { apply Zdigits2_nonneg. }
  rewrite !Zdigits2_log2 by lia.
  pose proof (Z.log2_le_mono a b). lia.
Qed.

Lemma Zdigits2_succ (m : Z) : 0 ≤ m → Zdigits2 (m + 1) ≤ Zdigits2 m + 1.
Proof.
  intros Hm. destruct (decide (m = 0)) as [->|Hm0]; [done|].
  rewrite !Zdigits2_log2 by lia.
  pose proof (Z.log2_succ_le m). unfold Z.succ in *. lia.
Qed.

Lemma Zdigits2_square (m : positive) :
  Zdigits2 (Z.pos (m * m)) ≤ 2 * Z.pos (digits2_pos m).
Proof.
  change (Z.pos (digits2_pos m)) with (Zdigits2 (Z.pos m)).
  rewrite !Zdigits2_log2 by lia. rewrite Pos2Z.inj_mul.
  pose proof (Z.log2_mul_above (Z.pos m) (Z.pos m)). lia.
Qed.

Lemma shr_1_m (mrs : shr_record) :
  0 ≤ shr_m mrs → 0 ≤ shr_m (shr_1 mrs) ≤ shr_m mrs.
Proof.
  destruct mrs as [m r s]. simpl.
  destruct m as [|[p|p|]|[p|p|]]; simpl; lia.
Qed.

Lemma iter_shr_1_m (p : positive) (mrs : shr_record) :
  0 ≤ shr_m mrs → 0 ≤ shr_m (@SpecFloat.iter_pos shr_record shr_1 p mrs) ≤ shr_m mrs.
Proof.
  revert mrs. induction p as [p IH|p IH|]; intros mrs Hm; simpl.
  - pose proof (shr_1_m mrs Hm) as H1.
    pose proof (IH (shr_1 mrs) ltac:(lia)) as H2.
    pose proof (IH (@SpecFloat.iter_pos shr_record shr_1 p (shr_1 mrs)) ltac:(lia)). lia.
  - pose proof (IH mrs Hm) as H1.
    pose proof (IH (@SpecFloat.iter_pos shr_record shr_1 p mrs) ltac:(lia)). lia.
  - by apply shr_1_m.
Qed.

Lemma shr_fexp_bounds (m e : Z) (l : location) :
  0 ≤ m →
  0 ≤ shr_m (shr_fexp prec emax m e l).1 ≤ m ∧
  (shr_fexp prec emax m e l).2 = e `max` fexp prec emax (Zdigits2 m + e).
Proof.
  intros Hm. unfold shr_fexp, shr.
  assert (shr_m (shr_record_of_loc m l) = m) as Hrec by (by destruct l as [|[]]).
  destruct (fexp prec emax (Zdigits2 m + e) - e) as [|p|p] eqn:Hn; simpl.
  - rewrite Hrec. lia.
  - pose proof (iter_shr_1_m p (shr_record_of_loc m l)) as H.
    rewrite Hrec in H. lia.
  - rewrite Hrec. lia.
Qed.

Lemma round_nearest_even_bounds (m : Z) (l : location) :
  m ≤ round_nearest_even m l ≤ m + 1.
Proof. destruct l as [|[]]; simpl; try destruct (Z.even m); lia. Qed.

(** A mantissa of 106 bits at most with an exponent of -104 at most is
    below 4: rounding it gives a zero or a finite number. *)
Lemma binary_round_aux_small (s : bool) (m e : Z) :
  0 < m → Zdigits2 m ≤ 106 → e ≤ -104 →
  binary_round_aux prec emax s m e loc_Exact = S754_zero s ∨
  ∃ m' e', binary_round_aux prec emax s m e loc_Exact = S754_finite s m' e'.
Proof.
  intros Hm Hd He. unfold binary_round_aux.
  destruct (shr_fexp_bounds m e loc_Exact) as [Hm1 He1]; [lia|].
  destruct (shr_fexp prec emax m e loc_Exact) as [mrs' e']. simpl in Hm1, He1.
  pose proof (round_nearest_even_bounds (shr_m mrs') (loc_of_shr_record mrs'))
    as Hr.
  set (m1 := round_nearest_even (shr_m mrs') (loc_of_shr_record mrs')) in *.
  destruct (shr_fexp_bounds m1 e' loc_Exact) as [Hm2 He2]; [lia|].
  destruct (shr_fexp prec emax m1 e' loc_Exact) as [mrs'' e'']. simpl in Hm2, He2.
  assert (Zdigits2 m1 ≤ 107) as Hd1.
  { pose proof (Zdigits2_mono m1 (m + 1) ltac:(lia)).
    pose proof (Zdigits2_succ m ltac:(lia)). lia. }
  pose proof (Zdigits2_nonneg m). pose proof (Zdigits2_nonneg m1).
  unfold fexp, emin, prec, emax in *.
  destruct (shr_m mrs'') as [|p|p]; [by left | | lia].
  right. destruct (Z.leb_spec e'' (1024 - 53)); [eauto | lia].
Qed.


Lemma Prim2SF_one : Prim2SF 1 = S754_finite false 4503599627370496 (-52).
Proof. vm_compute. reflexivity. Qed.

Lemma Prim2SF_zero : Prim2SF 0 = S754_zero false.
Proof. vm_compute. reflexivity. Qed.

Lemma SFleb_finite_exponent (s : bool) (m m' : positive) (e e' : Z) :
  SFleb (SFabs (S754_finite s m e)) (S754_finite false m' e') = true → e ≤ e'.
Proof.
  unfold SFleb, SFabs, SFcompare.
  destruct (Z.compare_spec e e'); [lia | lia | done].
Qed.

Lemma valid_binary_digits (s : bool) (m : positive) (e : Z) :
  valid_binary (S754_finite s m e) = true →
  Z.pos (digits2_pos m) ≤ 53.
Proof.
  unfold valid_binary, SpecFloat.valid_binary, bounded, canonical_mantissa.
  intros [Hcanon _]%andb_true_iff. apply Z.eqb_eq in Hcanon.
  unfold fexp, emin, prec, emax in Hcanon. lia.
Qed.

(** The square of a number between -1 and 1, times [+0], is [+0]. *)
Lemma float_square_mul_zero (c : float) :
  (abs c <=? 1)%float = true → (c * c * 0)%float = 0%float.
Proof.
  rewrite leb_spec, abs_spec, Prim2SF_one. intros Hle.
  apply Prim2SF_inj. rewrite !mul_spec, Prim2SF_zero.
  pose proof (Prim2SF_valid c) as Hvalid.
  destruct (Prim2SF c) as [s|s| |s m e].
  - by destruct s.
  - done.
  - done.
  - apply valid_binary_digits in Hvalid. apply SFleb_finite_exponent in Hle.
    pose proof (Zdigits2_square m) as Hsq.
    unfold SF64mul. cbn [SFmul].
    destruct (binary_round_aux_small (xorb s s) (Z.pos (m * m)) (e + e))
      as [->|(m' & e' & ->)]; [lia | lia | lia | |]; by destruct s.
Qed.

Lemma float_eqb_opp (x y : float) : (- x =? y)%float = (x =? - y)%float.
Proof.
  apply Bool.eq_true_iff_eq.
  rewrite !float_eqb_Eq, !SFcompare_Eq, !opp_spec.
  destruct (Prim2SF x) as [sx|sx| |sx mx ex], (Prim2SF y) as [sy|sy| |sy my ey];
    simpl; try destruct sx; try destruct sy; simpl;
    (split; intros [H1 H2]; (split; [by simplify_eq | done])).
Qed.

Lemma float_eqb_zero_opp (x : float) : (- x =? 0)%float = (x =? 0)%float.
Proof.
  rewrite float_eqb_opp. apply Bool.eq_true_iff_eq.
  split; intros H; apply (float_eqb_trans _ _ _ H); reflexivity.
Qed.

Lemma float_square_opp (x : float) : (- x * - x)%float = (x * x)%float.
Proof.
  rewrite float_mul_opp_l, (float_mul_comm x), float_mul_opp_l.
  apply float_opp_involutive.
Qed.


(** ** Sorting, slicing and order of occurrence *)

Section sorting.
Context {A : Type} (key : A → float).
Implicit Types (a l run rest : list A) (pivot x y : A).

Lemma sorted_nil : sorted [] key = [].
Proof. done. Qed.

Lemma binary_insert_perm a pivot : binary_insert key a pivot ≡ₚ pivot :: a.
Proof.
  unfold binary_insert. rewrite <- Permutation_middle. by rewrite take_drop.
Qed.

Lemma binarysort_perm run rest : binarysort key run rest ≡ₚ run ++ rest.
Proof.
  unfold binarysort. revert run.
  induction rest as [|x rest IH]; intros run; simpl.
  - by rewrite app_nil_r.
  - rewrite IH, binary_insert_perm. simpl. apply Permutation_middle.
Qed.

(** Whatever the keys are, sorting rearranges the list. *)
Lemma sorted_perm l : sorted l key ≡ₚ l.
Proof.
  unfold sorted. destruct (count_run key l) as [n d].
  rewrite binarysort_perm.
  destruct d; [rewrite reverse_Permutation|]; by rewrite take_drop.
Qed.

(** The search ends between the elements that are not above the pivot and
    the elements that are above it. *)
Lemma bisect_spec a pivot steps (l r : nat) :
  StronglySorted (key_le key) a → no_nan key a → is_nan (key pivot) = false →
  (l ≤ r ≤ length a)%nat → (r - l ≤ steps)%nat →
  Forall (λ y, key_le key y pivot) (take l a) →
  Forall (λ y, (key pivot <? key y)%float = true) (drop r a) →
  Forall (λ y, key_le key y pivot) (take (bisect key a pivot steps l r) a) ∧
  Forall (λ y, (key pivot <? key y)%float = true)
         (drop (bisect key a pivot steps l r) a).
Proof.
  intros Ha Hnan Hp. revert l r.
  induction steps as [|steps IH]; intros l r Hlr Hsteps Hl Hr; cbn [bisect].
  { assert (l = r) as -> by lia. done. }
  destruct (Nat.ltb_spec l r) as [Hlt|Hge].
  2: { assert (l = r) as -> by lia. done. }
  pose proof (Nat.div_mod_eq (r - l) 2) as Hdiv.
  pose proof (Nat.mod_upper_bound (r - l) 2) as Hmod.
  set (p := (l + (r - l) / 2)%nat) in *.
  assert (l ≤ p < r)%nat as Hpr by lia.
  destruct (a !! p) as [y|] eqn:Hy.
  2: { apply lookup_ge_None in Hy. lia. }
  pose proof (take_drop_middle a p y Hy) as Hsplit.
  rewrite <- Hsplit in Ha.
  destruct (key pivot <? key y)%float eqn:Hcmp.
  - apply IH; [lia | lia | done |].
    rewrite (drop_S _ _ _ Hy). constructor; [done|].
    apply StronglySorted_app_1_r, StronglySorted_cons in Ha as [Hys _].
    apply Forall_forall. intros z Hz.
    apply (float_lt_le_trans _ (key y)); [|done|].
    + unfold no_nan in Hnan. rewrite Forall_forall in Hnan. apply Hnan.
      rewrite <- Hsplit. apply elem_of_app. right. by apply list_elem_of_further.
    + rewrite Forall_forall in Hys. by apply Hys.
  - apply IH; [lia | lia | | done].
    rewrite (take_S_r _ _ _ Hy). apply Forall_app. split; [|by repeat constructor].
    apply Forall_forall. intros z Hz. unfold key_le.
    assert (z ∈ a) as Hza
      by (rewrite <- Hsplit; apply elem_of_app; by left).
    assert (y ∈ a) as Hya
      by (rewrite <- Hsplit; apply elem_of_app; right; apply list_elem_of_here).
    unfold no_nan in Hnan. rewrite Forall_forall in Hnan.
    apply (float_le_trans (key z) (key y) (key pivot)); [by apply Hnan.. | done | | done].
    apply (StronglySorted_app_1_elem_of _ _ _ _ _ Ha); [done|].
    apply list_elem_of_here.
Qed.

Lemma filter_none (P : A → Prop) `{!∀ x, Decision (P x)} l :
  Forall (λ x, ¬ P x) l → filter P l = [].
Proof.
  induction 1 as [|x l Hx _ IH]; [done|]. by rewrite filter_cons_False.
Qed.

(** Putting [pivot] into a sorted list of numbers keeps it sorted, and puts
    it behind the elements of its key. *)
Lemma binary_insert_spec a pivot :
  StronglySorted (key_le key) a → no_nan key a → is_nan (key pivot) = false →
  StronglySorted (key_le key) (binary_insert key a pivot) ∧
  ∀ k, filter (keyed key k) (binary_insert key a pivot)
       = filter (keyed key k) (a ++ [pivot]).
Proof.
  intros Ha Hnan Hp. unfold binary_insert.
  destruct (bisect_spec a pivot (length a) 0 (length a) Ha Hnan Hp)
    as [Hbelow Habove]; [lia | lia | by rewrite take_0 | by rewrite drop_all |].
  set (pos := bisect key a pivot (length a) 0 (length a)) in *.
  rewrite <- (take_drop pos a) in Ha. split.
  - apply StronglySorted_app_2.
    + intros x1 x2 Hx1 [->|Hx2]%elem_of_cons.
      * rewrite Forall_forall in Hbelow. by apply Hbelow.
      * by apply (StronglySorted_app_1_elem_of _ _ _ _ _ Ha).
    + by apply StronglySorted_app_1_l in Ha.
    + constructor; [by apply StronglySorted_app_1_r in Ha|].
      eapply Forall_impl; [exact Habove|]. intros z Hz. by apply float_ltb_asym.
  - intros k. rewrite <- (take_drop pos a) at 3.
    rewrite !filter_app, filter_cons, <- app_assoc. f_equal.
    destruct (decide (keyed key k pivot)) as [Hk|Hk].
    + rewrite filter_none; [by rewrite filter_cons_True|].
      eapply Forall_impl; [exact Habove|]. intros z Hz Hkz. unfold keyed in *.
      assert ((key pivot =? key z)%float = true) as Heq
        by eauto using float_eqb_trans, float_eqb_sym.
      apply float_eqb_not_ltb in Heq. congruence.
    + rewrite filter_cons_False, filter_nil by done. by rewrite app_nil_r.
Qed.

Lemma no_nan_perm l l' : l ≡ₚ l' → no_nan key l → no_nan key l'.
Proof. unfold no_nan. by intros ->. Qed.

Lemma binarysort_spec run rest :
  StronglySorted (key_le key) run → no_nan key (run ++ rest) →
  StronglySorted (key_le key) (binarysort key run rest) ∧
  ∀ k, filter (keyed key k) (binarysort key run rest)
       = filter (keyed key k) (run ++ rest).
Proof.
  unfold binarysort. revert run.
  induction rest as [|x rest IH]; intros run Hrun Hnan; simpl.
  - by rewrite app_nil_r.
  - pose proof Hnan as [Hnr [Hx Hnrest]%Forall_cons]%Forall_app.
    destruct (binary_insert_spec run x Hrun Hnr Hx) as [Hs Hf].
    destruct (IH (binary_insert key run x) Hs) as [Hs' Hf'].
    { apply Forall_app. split; [|done].
      apply (no_nan_perm (x :: run)); [by rewrite binary_insert_perm|].
      by constructor. }
    split; [done|]. intros k.
    rewrite Hf', filter_app, Hf, <- filter_app, <- app_assoc. done.
Qed.

(** The run that starts the list. *)
Lemma run_tail_ascending x l :
  no_nan key (x :: l) →
  StronglySorted (key_le key) (x :: take (run_tail key false x l) l).
Proof.
  revert x. induction l as [|y l IH]; intros x Hnan; simpl.
  { repeat constructor. }
  apply Forall_cons in Hnan as [Hx Hnan].
  destruct (key y <? key x)%float eqn:Hyx; simpl.
  { repeat constructor. }
  specialize (IH y Hnan). constructor; [done|].
  constructor; [done|].
  apply StronglySorted_cons in IH as [Hy _].
  apply Forall_forall. intros z Hz. unfold key_le.
  pose proof Hnan as [Hyn Hln]%Forall_cons.
  apply (float_le_trans (key x) (key y) (key z)); [done | done | | done |].
  - unfold no_nan in Hln. rewrite Forall_forall in Hln. apply Hln.
    by apply subseteq_take in Hz.
  - rewrite Forall_forall in Hy. by apply Hy.
Qed.

Lemma run_tail_descending x l :
  StronglySorted (flip (key_lt key))
                 (x :: take (run_tail key true x l) l).
Proof.
  revert x. induction l as [|y l IH]; intros x; simpl.
  { repeat constructor. }
  destruct (key y <? key x)%float eqn:Hyx; simpl.
  2: { repeat constructor. }
  specialize (IH y). constructor; [done|].
  constructor; [done|].
  apply StronglySorted_cons in IH as [Hy _].
  eapply Forall_impl; [exact Hy|]. intros z Hz. unfold flip, key_lt in *.
  by apply (float_ltb_trans _ (key y)).
Qed.

Lemma StronglySorted_reverse (R : relation A) l :
  StronglySorted R l → StronglySorted (flip R) (reverse l).
Proof.
  induction 1 as [|x l Hl IH Hx]; [constructor|].
  rewrite reverse_cons. apply StronglySorted_app_2; [|done|by repeat constructor].
  intros x1 x2 Hx1 ->%list_elem_of_singleton. rewrite elem_of_reverse in Hx1.
  rewrite Forall_forall in Hx. unfold flip. by apply Hx.
Qed.

Lemma StronglySorted_impl (R R' : relation A) l :
  (∀ x y, R x y → R' x y) → StronglySorted R l → StronglySorted R' l.
Proof.
  intros HR. induction 1 as [|x l Hl IH Hx]; constructor; [done|].
  eapply Forall_impl; [exact Hx | auto].
Qed.

(** A run that descends in the strict sense has one element of each key
    at most, so that reversing it moves no element past one of its key. *)
Lemma descending_keyed (k : float) l :
  StronglySorted (flip (key_lt key)) l →
  filter (keyed key k) (reverse l) = filter (keyed key k) l.
Proof.
  intros Hl. rewrite filter_reverse.
  assert (length (filter (keyed key k) l) ≤ 1)%nat as Hlen.
  { induction Hl as [|x l Hl IH Hx]; [simpl; lia|].
    rewrite filter_cons. destruct (decide (keyed key k x)) as [Hk|Hk]; [|done].
    rewrite filter_none; [simpl; lia|].
    eapply Forall_impl; [exact Hx|]. intros z Hz Hkz. unfold keyed in *.
    assert ((key z =? key x)%float = true) as Heq
      by eauto using float_eqb_trans, float_eqb_sym.
    apply float_eqb_not_ltb in Heq. unfold flip, key_lt in Hz. congruence. }
  destruct (filter (keyed key k) l) as [|x [|y l']]; simpl in *; [done | done | lia].
Qed.

Lemma first_run_spec l n descending :
  count_run key l = (n, descending) → no_nan key l →
  let run := take n l in
  StronglySorted (key_le key) (if descending then reverse run else run) ∧
  ∀ k, filter (keyed key k) (if descending then reverse run else run)
       = filter (keyed key k) run.
Proof.
  intros Hrun Hnan.
  destruct l as [|x [|y l]]; simpl in Hrun; simplify_eq; simpl.
  { split; [constructor | done]. }
  { split; [repeat constructor | done]. }
  destruct (key y <? key x)%float eqn:Hyx; simpl.
  - pose proof (run_tail_descending y l) as Hd.
    assert (StronglySorted (flip (key_lt key))
              (x :: y :: take (run_tail key true y l) l)) as Hd'.
    { pose proof (run_tail_descending x (y :: l)) as H. simpl in H.
      by rewrite Hyx in H. }
    split; [|intros k; by apply descending_keyed].
    apply StronglySorted_reverse in Hd'.
    eapply StronglySorted_impl; [|exact Hd']. intros u v Huv.
    unfold flip, key_lt in Huv. by apply float_ltb_asym.
  - split; [|done].
    pose proof (run_tail_ascending x (y :: l) Hnan) as H. simpl in H.
    by rewrite Hyx in H.
Qed.

(** On keys that are numbers the sorted list is in non-decreasing order of
    the keys, ... *)
Lemma sorted_StronglySorted l :
  no_nan key l → StronglySorted (key_le key) (sorted l key).
Proof.
  intros Hnan. unfold sorted.
  destruct (count_run key l) as [n d] eqn:Hrun.
  destruct (first_run_spec l n d Hrun Hnan) as [Hs _].
  apply binarysort_spec; [done|].
  apply (no_nan_perm l); [|done].
  destruct d; [rewrite reverse_Permutation|]; by rewrite take_drop.
Qed.

(** ... and the sort is stable: the elements of one key are in the order
    that they had. *)
Lemma sorted_keyed (k : float) l :
  no_nan key l → filter (keyed key k) (sorted l key) = filter (keyed key k) l.
Proof.
  intros Hnan. unfold sorted.
  destruct (count_run key l) as [n d] eqn:Hrun.
  destruct (first_run_spec l n d Hrun Hnan) as [Hs Hf].
  destruct (binarysort_spec (if d then reverse (take n l) else take n l)
              (drop n l) Hs) as [_ Hk].
  { apply (no_nan_perm l); [|done].
    destruct d; [rewrite reverse_Permutation|]; by rewrite take_drop. }
  rewrite Hk, filter_app, Hf, <- filter_app. by rewrite take_drop.
Qed.
End sorting.

Section stable_sort.
Context {A : Type} (key : A → float).

(** On keys that are numbers a list has one stable arrangement in
    non-decreasing order of the keys. *)
Lemma stable_sort_unique (l1 l2 : list A) :
  no_nan key l1 → l1 ≡ₚ l2 →
  StronglySorted (key_le key) l1 → StronglySorted (key_le key) l2 →
  (∀ k, filter (keyed key k) l1 = filter (keyed key k) l2) →
  l1 = l2.
Proof.
  revert l2. induction l1 as [|x l1 IH]; intros l2 Hnan Hperm Hs1 Hs2 Hf.
  { by apply Permutation_nil_l in Hperm. }
  destruct l2 as [|y l2]; [by apply Permutation_nil_r in Hperm|].
  pose proof Hnan as [Hx Hnan1]%Forall_cons.
  assert (no_nan key (y :: l2)) as [Hy Hnan2]%Forall_cons
    by (eapply no_nan_perm; done).
  apply StronglySorted_cons in Hs1 as [Hx1 Hs1].
  apply StronglySorted_cons in Hs2 as [Hy2 Hs2].
  assert (key_le key x y) as Hxy.
  { assert (y ∈ x :: l1) as [->|Hin]%elem_of_cons
      by (rewrite Hperm; apply list_elem_of_here).
    - unfold key_le. apply float_eqb_not_ltb. by apply negb_false_iff in Hy.
    - rewrite Forall_forall in Hx1. by apply Hx1. }
  assert (key_le key y x) as Hyx.
  { assert (x ∈ y :: l2) as [->|Hin]%elem_of_cons
      by (rewrite <- Hperm; apply list_elem_of_here).
    - done.
    - rewrite Forall_forall in Hy2. by apply Hy2. }
  assert ((key y =? key x)%float = true) as Heq
    by (by apply float_le_antisym).
  assert ((key x =? key x)%float = true) as Hxx by (by apply negb_false_iff in Hx).
  assert (x = y) as <-.
  { specialize (Hf (key x)).
    rewrite !filter_cons_True in Hf by done. by injection Hf. }
  f_equal. apply IH; [done | by apply Permutation_cons_inv in Hperm | done | done |].
  intros k. specialize (Hf k). rewrite !filter_cons in Hf.
  destruct (decide (keyed key k x)); [by injection Hf | done].
Qed.

(** So every stable sort gives, on such keys, the list that [sorted]
    gives. *)
Lemma sorted_stable_sort (l l' : list A) :
  no_nan key l → l' ≡ₚ l →
  StronglySorted (key_le key) l' →
  (∀ k, filter (keyed key k) l' = filter (keyed key k) l) →
  l' = sorted l key.
Proof.
  intros Hnan Hperm Hs Hf. apply stable_sort_unique.
  - eapply no_nan_perm; done.
  - by rewrite sorted_perm.
  - done.
  - by apply sorted_StronglySorted.
  - intros k. by rewrite sorted_keyed.
Qed.
End stable_sort.

Lemma slice_to_take {A} (l : list A) (stop : Z) :
  ∃ n, slice_to l stop = take n l.
Proof. unfold slice_to. destruct (stop <? 0); eauto. Qed.

Lemma slice_to_length {A} (l : list A) (stop : Z) :
  0 ≤ stop → length (slice_to l stop) = (Z.to_nat stop `min` length l)%nat.
Proof.
  intros H. unfold slice_to.
  destruct (Z.ltb_spec stop 0) as [?|_]; [lia|]. apply length_take.
Qed.

Lemma slice_to_length_neg {A} (l : list A) (stop : Z) :
  stop < 0 → length (slice_to l stop) = Z.to_nat (Z.of_nat (length l) + stop).
Proof.
  intros H. unfold slice_to.
  destruct (Z.ltb_spec stop 0) as [_|?]; [|lia]. rewrite length_take. lia.
Qed.

Section precedes.
Context {A : Type}.
Implicit Types (a b : A) (l : list A).







End precedes.

(** ** The loop of the event feed client *)

Lemma event_of_item_object (item : pyval) :
  is_object item → ∃ e, event_of_item item = Return e.
Proof. intros [d ->]. simpl. eauto. Qed.

Lemma append_events_objects (items : list pyval) :
  Forall is_object items →
  ∀ (acc : list loc) (s : state),
    ∃ evs s', append_events items acc s = (Return evs, s') ∧
              length evs = (length acc + length items)%nat ∧
              calls s' = calls s.
Proof.
  induction 1 as [|item items Hitem _ IH]; intros acc s; simpl.
  - exists acc, s. unfold ret. split_and!; [done | lia | done].
  - destruct (event_of_item_object item Hitem) as [e He].
    unfold bind, lift at 1. rewrite He.
    unfold new_event, bind, get_heap, put_heap, ret; simpl.
    edestruct IH as (evs & s' & -> & Hlen & Hcalls).
    exists evs, s'. split_and!; [done | | done].
    rewrite Hlen, length_app; simpl. lia.
Qed.

(** ** The proximity ranker *)

Section ranker.
Context (mm : MathModule) (w : World) (coords : Coordinates).

Lemma annotate_run (event : loc) (s : state) :
  annotate mm coords event s =
    match heap s !! event with
    | None => (Return tt, s)
    | Some e =>
      match distance_from mm coords e with
      | Return d =>
        (Return tt, {| heap := <[event := set_distance_miles e (Some d)]> (heap s);
                       calls := calls s |})
      | Raise x => (Raise x, s)
      end
    end.
Proof.
  unfold annotate, bind, get_heap, lift, put_heap, ret, distance_from; simpl.
  destruct (heap s !! event) as [e|]; [|done].
  by destruct (haversine_miles _ _ _ _ _).
Qed.

Lemma annotated_nil (h : gmap loc OutageEvent) : annotated mm coords [] h h.
Proof.
  intros l. destruct (h !! l) eqn:Hl; [|done].
  destruct (decide (l ∈ [])) as [Hin|_]; [|done]. by apply elem_of_nil in Hin.
Qed.

Lemma distance_from_set_distance (e : OutageEvent) (d : option float) :
  distance_from mm coords (set_distance_miles e d) = distance_from mm coords e.
Proof. done. Qed.

Lemma for_each_annotate (events : list loc) (s s' : state) :
  for_each events (annotate mm coords) s = (Return tt, s') →
  calls s' = calls s ∧ annotated mm coords events (heap s) (heap s').
Proof.
  revert s. induction events as [|x events IH]; intros s; simpl.
  - unfold ret. intros [= <-]. split; [done | apply annotated_nil].
  - unfold bind. rewrite annotate_run.
    destruct (heap s !! x) as [e|] eqn:Hx.
    + destruct (distance_from mm coords e) as [d|err] eqn:Hd; [|done].
      intros [Hcalls Hann]%IH. simpl in *. split; [done|].
      intros l. specialize (Hann l).
      destruct (decide (l = x)) as [->|Hne].
      * rewrite lookup_insert_eq in Hann. rewrite Hx.
        rewrite decide_True by apply list_elem_of_here.
        destruct (decide (x ∈ events)).
        -- destruct Hann as (d' & Hd' & Hl). exists d'. split; [|done].
           by rewrite distance_from_set_distance in Hd'.
        -- eauto.
      * rewrite lookup_insert_ne in Hann by done.
        destruct (heap s !! l); [|done].
        destruct (decide (l ∈ events)).
        -- rewrite decide_True by (by apply list_elem_of_further). done.
        -- rewrite decide_False by (by intros [?|?]%elem_of_cons). done.
    + intros [Hcalls Hann]%IH. split; [done|].
      intros l. specialize (Hann l).
      destruct (heap s !! l) eqn:Hl; [|done].
      assert (l ≠ x) by congruence.
      destruct (decide (l ∈ events)).
      * rewrite decide_True by (by apply list_elem_of_further). done.
      * rewrite decide_False by (by intros [?|?]%elem_of_cons). done.
Qed.

Lemma find_nearest_events_run (limit : Z) (events out : list loc) (s s' : state) :
  find_nearest_events mm w coords limit (Some events) s = (Return out, s') →
  out = slice_to (sorted events (sort_key (heap s'))) limit ∧
  calls s' = calls s ∧
  annotated mm coords events (heap s) (heap s').
Proof.
  unfold find_nearest_events, bind. unfold ret at 1.
  destruct (for_each events (annotate mm coords) s) as [[[]|err] s1] eqn:Hloop;
    [|done].
  unfold get_heap, ret. intros [= <- <-].
  apply for_each_annotate in Hloop as [? ?]. done.
Qed.
End ranker.


(** ** Order of the sorted list *)

Lemma StronglySorted_take {A} (R : relation A) (n : nat) (l : list A) :
  StronglySorted R l → StronglySorted R (take n l).
Proof.
  intros Hl. rewrite <- (take_drop n l) in Hl.
  by apply StronglySorted_app_1_l in Hl.
Qed.

Lemma StronglySorted_lookup {A} (R : relation A) (l : list A) (i j : nat)
    (a b : A) :
  StronglySorted R l → (i < j)%nat → l !! i = Some a → l !! j = Some b → R a b.
Proof.
  intros Hl. revert i j. induction Hl as [|x l Hl IH Hx]; intros i j Hij Hi Hj.
  { by rewrite lookup_nil in Hi. }
  destruct j as [|j]; [lia|]. simpl in Hj. destruct i as [|i]; simpl in Hi.
  - injection Hi as <-. rewrite Forall_forall in Hx.
    apply Hx. by eapply list_elem_of_lookup_2.
  - apply (IH i j); [lia | done | done].
Qed.

Lemma or_inf_no_nan (d : option float) :
  (∀ f, d = Some f → is_nan f = false) → is_nan (or_inf d) = false.
Proof.
  intros Hd. destruct d as [f|]; simpl; [|done].
  destruct (float_truthy f); [by apply Hd | done].
Qed.

Lemma sort_key_no_nan (h : gmap loc OutageEvent) (events : list loc) :
  (∀ l d, l ∈ events → distance_in h l = Some d → is_nan d = false) →
  no_nan (sort_key h) events.
Proof.
  intros Hd. apply Forall_forall. intros l Hl. unfold sort_key.
  apply or_inf_no_nan. intros f Hf. by apply (Hd l).
Qed.

Section ranker_returns.
Context (mm : MathModule) (w : World) (coords : Coordinates).

(** The call returns when the distance of every supplied event can be
    computed. *)
Lemma for_each_annotate_returns (events : list loc) (s : state) :
  (∀ l e, l ∈ events → heap s !! l = Some e →
     ∃ d, distance_from mm coords e = Return d) →
  ∃ s', for_each events (annotate mm coords) s = (Return tt, s').
Proof.
  revert s. induction events as [|x events IH]; intros s Hd; simpl.
  - by eexists.
  - unfold bind. rewrite annotate_run.
    destruct (heap s !! x) as [e|] eqn:Hx.
    + destruct (Hd x e) as [d Hdx]; [apply list_elem_of_here | done |].
      rewrite Hdx. apply IH. simpl. intros l e' Hl Hl'.
      destruct (decide (l = x)) as [->|Hne].
      * rewrite lookup_insert_eq in Hl'. injection Hl' as <-.
        rewrite distance_from_set_distance. eauto.
      * rewrite lookup_insert_ne in Hl' by done.
        eapply Hd; [by apply list_elem_of_further | done].
    + apply IH. intros l e' Hl Hl'.
      eapply Hd; [by apply list_elem_of_further | done].
Qed.

(** X4: [find_nearest_events] returns, for any limit, when the distance of
    every supplied event can be computed. *)
Lemma find_nearest_events_returns (limit : Z) (events : list loc) (s : state) :
  (∀ l e, l ∈ events → heap s !! l = Some e →
     ∃ d, distance_from mm coords e = Return d) →
  ∃ out s', find_nearest_events mm w coords limit (Some events) s
            = (Return out, s').
Proof.
  intros [s' Hloop]%for_each_annotate_returns.
  unfold find_nearest_events, bind. unfold ret at 1. rewrite Hloop.
  unfold get_heap, ret. eauto.
Qed.

(** X3: when [find_nearest_events] returns, every event object of the
    returned list carries a distance in [distance_miles]. *)
Lemma find_nearest_events_populated (limit : Z) (events out : list loc)
    (s s' : state) (l : loc) :
  find_nearest_events mm w coords limit (Some events) s = (Return out, s') →
  l ∈ out → is_Some (heap s !! l) →
  ∃ d, distance_in (heap s') l = Some d.
Proof.
  intros (-> & _ & Hann)%find_nearest_events_run Hl [e He].
  destruct (slice_to_take (sorted events (sort_key (heap s'))) limit)
    as [n Hn]. rewrite Hn in Hl. apply subseteq_take in Hl.
  rewrite sorted_perm in Hl.
  specialize (Hann l). rewrite He, decide_True in Hann by done.
  destruct Hann as (d & _ & Hd). exists d. unfold distance_in. by rewrite Hd.
Qed.
End ranker_returns.

(** The length of the returned list, for a limit of either sign. *)
Lemma find_nearest_events_length (mm : MathModule) (w : World)
    (coords : Coordinates) (limit : Z) (events out : list loc) (s s' : state) :
  find_nearest_events mm w coords limit (Some events) s = (Return out, s') →
  length out =
    if limit <? 0 then Z.to_nat (Z.of_nat (length events) + limit)
    else (Z.to_nat limit `min` length events)%nat.
Proof.
  intros (-> & _ & _)%find_nearest_events_run.
  pose proof (Permutation_length (sorted_perm (sort_key (heap s')) events)) as <-.
  destruct (Z.ltb_spec limit 0).
  - by apply slice_to_length_neg.
  - by apply slice_to_length.
Qed.

(** X2: when [find_nearest_events] returns and no computed distance is NaN,
    the list is in the order of the sort key [distance_miles or inf]: no
    event has, anywhere behind it in the list, an event with a smaller
    key. *)
Lemma find_nearest_events_Sorted (mm : MathModule) (w : World)
    (coords : Coordinates) (limit : Z) (events out : list loc) (s s' : state)
    (i j : nat) (a b : loc) :
  find_nearest_events mm w coords limit (Some events) s = (Return out, s') →
  (∀ l d, l ∈ events → distance_in (heap s') l = Some d → is_nan d = false) →
  (i < j)%nat → out !! i = Some a → out !! j = Some b →
  key_le (sort_key (heap s')) a b.
Proof.
  intros (-> & _ & _)%find_nearest_events_run Hnan%sort_key_no_nan.
  destruct (slice_to_take (sorted events (sort_key (heap s'))) limit) as [n ->].
  apply StronglySorted_lookup, StronglySorted_take.
  by apply sorted_StronglySorted.
Qed.

(** ** The sample distances *)

Lemma table_math_standard : standard_values table_math.
Proof. split; reflexivity. Qed.

Section standard.
Context (mm : MathModule) (Hmm : standard_values mm).

Lemma distance_same_point (n : Z) :
  distance_from mm origin (event_at n 0 0) = Return 0%float.
Proof.
  destruct Hmm as [H1 H2 H3 H4 H5 H6 H7]. vm_compute in H1, H2, H3, H4, H5, H6, H7.
  unfold distance_from, haversine_miles.
  vm_compute. rewrite H1. vm_compute. rewrite H6. vm_compute. rewrite H3.
  vm_compute. rewrite H4. reflexivity.
Qed.

Lemma distance_far_side (n : Z) :
  distance_from mm origin (event_at n 0 180) = Return half_way_round.
Proof.
  destruct Hmm as [H1 H2 H3 H4 H5 H6 H7]. vm_compute in H1, H2, H3, H4, H5, H6, H7.
  unfold distance_from, haversine_miles.
  vm_compute. rewrite H1. vm_compute. rewrite H6. vm_compute. rewrite H3.
  vm_compute. rewrite H2. vm_compute. rewrite H7. vm_compute. rewrite H5.
  reflexivity.
Qed.
End standard.

Lemma mirror_math_standard : standard_values mirror_math.
Proof. split; reflexivity. Qed.

Lemma mirror_math_symmetry : sign_symmetry mirror_math.
Proof.
  split.
  - intros x. cbn [math_sin mirror_math].
    rewrite float_eqb_zero_opp, (float_eqb_opp x half_pi),
      (float_eqb_opp x (- half_pi)), float_opp_involutive.
    destruct (x =? 0)%float; [done|].
    destruct (x =? half_pi)%float eqn:H1, (x =? - half_pi)%float eqn:H2;
      try done.
    apply float_eqb_sym in H1.
    pose proof (float_eqb_trans _ _ _ H1 H2) as H. vm_compute in H. done.
  - intros x. cbn [float_pow mirror_math table_math].
    change (2 =? 2)%float with true. cbv iota. by rewrite float_square_opp.
  - intros x e. cbn [math_cos mirror_math table_math].
    destruct (x =? 0)%float; congruence.
Qed.

Section distance.
Context (mm : MathModule).

Lemma haversine_miles_floats (la1 lo1 la2 lo2 : float) :
  haversine_miles mm (VFloat la1) (VFloat lo1) (VFloat la2) (VFloat lo2) =
    (p1 <~ haversine mm (la2 - la1)%float;
     c1 <~ math_cos mm (la1 * degToRad)%float;
     c2 <~ math_cos mm (la2 * degToRad)%float;
     p2 <~ haversine mm (lo2 - lo1)%float;
     q1 <~ math_sqrt (p1 + c1 * c2 * p2)%float;
     q2 <~ math_sqrt (1 - (p1 + c1 * c2 * p2))%float;
     t <~ math_atan2 mm q1 q2;
     Return (3959 * (2 * t))%float)%res.
Proof.
  unfold haversine_miles, haversine, math_radians, py_sub, as_double, as_int,
    res_bind.
  destruct (math_sin mm (_ * _ / 2)%float) as [s1|e1]; [|done].
  destruct (float_pow mm s1 2%float) as [p1|e1]; [|done].
  destruct (math_cos mm (la1 * degToRad)%float) as [c1|e1]; [|done].
  destruct (math_cos mm (la2 * degToRad)%float) as [c2|e1]; [|done].
  by destruct (math_sin mm (_ * _ / 2)%float) as [s2|e1].
Qed.

Lemma haversine_opp (d : float) :
  sign_symmetry mm → haversine mm (- d)%float = haversine mm d.
Proof.
  intros [Hsin Hpow _]. unfold haversine.
  rewrite float_mul_opp_l, float_div_opp_l, Hsin.
  destruct (math_sin mm (d * degToRad / 2)%float) as [y|e]; simpl; [|done].
  apply Hpow.
Qed.

Lemma haversine_sub (x y : float) :
  sign_symmetry mm → haversine mm (y - x)%float = haversine mm (x - y)%float.
Proof.
  intros Hmm. destruct (float_sub_swap x y) as [->|[-> ->]]; [|done].
  by apply haversine_opp.
Qed.

Lemma haversine_zero : standard_values mm → haversine mm 0%float = Return 0%float.
Proof.
  intros [H1 _ _ _ _ H6 _]. unfold haversine.
  change (0 * degToRad / 2)%float with 0%float. rewrite H1. simpl. exact H6.
Qed.
End distance.

(** The ranking of a supplied list depends on the math module through the
    distances of the events in the heap only, and on nothing of the world. *)
Section ranker_ext.
Context (mm mm' : MathModule) (w w' : World) (coords : Coordinates).

Lemma for_each_annotate_ext (events : list loc) (s : state) :
  (∀ l e, heap s !! l = Some e →
     distance_from mm coords e = distance_from mm' coords e) →
  for_each events (annotate mm coords) s = for_each events (annotate mm' coords) s.
Proof.
  revert s. induction events as [|x events IH]; intros s Hd; simpl; [done|].
  unfold bind. rewrite !annotate_run.
  destruct (heap s !! x) as [e|] eqn:Hx; [|by apply IH].
  rewrite <- (Hd x e Hx).
  destruct (distance_from mm coords e) as [d|err]; [|done].
  apply IH. simpl. intros l e' Hl.
  destruct (decide (l = x)) as [->|Hne].
  - rewrite lookup_insert_eq in Hl. injection Hl as <-.
    rewrite !distance_from_set_distance. eauto.
  - rewrite lookup_insert_ne in Hl by done. eauto.
Qed.

Lemma find_nearest_events_ext (limit : Z) (events : list loc) (s : state) :
  (∀ l e, heap s !! l = Some e →
     distance_from mm coords e = distance_from mm' coords e) →
  find_nearest_events mm w coords limit (Some events) s
  = find_nearest_events mm' w' coords limit (Some events) s.
Proof.
  intros Hd. unfold find_nearest_events, bind. unfold ret at 1 3.
  by rewrite (for_each_annotate_ext events s Hd).
Qed.
End ranker_ext.

Lemma three_events_distances (mm : MathModule) (l : loc) (e : OutageEvent) :
  standard_values mm →
  heap three_events !! l = Some e →
  distance_from mm origin e = distance_from table_math origin e.
Proof.
  intros Hmm Hl. pose proof table_math_standard as Ht.
  unfold three_events in Hl; simpl in Hl.
  apply lookup_insert_Some in Hl as [[_ <-]|[_ Hl]];
    [by rewrite !distance_same_point|].
  apply lookup_insert_Some in Hl as [[_ <-]|[_ Hl]];
    [by rewrite !distance_far_side|].
  apply lookup_insert_Some in Hl as [[_ <-]|[_ Hl]];
    [by rewrite !distance_far_side|].
  by rewrite lookup_empty in Hl.
Qed.

Lemma two_events_distances (mm : MathModule) (l : loc) (e : OutageEvent) :
  standard_values mm →
  heap two_events !! l = Some e →
  distance_from mm origin e = distance_from table_math origin e.
Proof.
  intros Hmm Hl. pose proof table_math_standard as Ht.
  unfold two_events in Hl; simpl in Hl.
  apply lookup_insert_Some in Hl as [[_ <-]|[_ Hl]];
    [by rewrite !distance_same_point|].
  apply lookup_insert_Some in Hl as [[_ <-]|[_ Hl]];
    [by rewrite !distance_far_side|].
  by rewrite lookup_empty in Hl.
Qed.

(** * Properties of the service *)

(** ** The distance calculator *)

(** C8: take float coordinates. For every C library whose sine is odd,
    whose square is even and whose cosine fails in one way only, the call
    for A and B and the call for B and A have the same outcome: they return
    the same float, or raise the same exception. For every C library with
    the standard values, the distance from a point with finite coordinates
    to itself is exactly 0.0, provided that the cosine of its latitude in
    radians comes out between -1 and 1. *)
Theorem haversine_miles_symmetric (mm : MathModule) :
  (sign_symmetry mm →
   ∀ la1 lo1 la2 lo2 : float,
     haversine_miles mm (VFloat la1) (VFloat lo1) (VFloat la2) (VFloat lo2)
     = haversine_miles mm (VFloat la2) (VFloat lo2) (VFloat la1) (VFloat lo1)) ∧
  (standard_values mm →
   ∀ la lo c : float,
     is_finite la = true → is_finite lo = true →
     math_cos mm (la * degToRad)%float = Return c →
     (abs c <=? 1)%float = true →
     haversine_miles mm (VFloat la) (VFloat lo) (VFloat la) (VFloat lo)
     = Return 0%float).
Proof.
  split.
  - intros Hmm la1 lo1 la2 lo2. rewrite !haversine_miles_floats.
    rewrite (haversine_sub mm la2 la1 Hmm), (haversine_sub mm lo2 lo1 Hmm).
    destruct (haversine mm (la2 - la1)%float) as [p1|e1]; [|done]. simpl.
    destruct (math_cos mm (la1 * degToRad)%float) as [c1|e1] eqn:H1,
             (math_cos mm (la2 * degToRad)%float) as [c2|e2] eqn:H2; simpl;
      try done.
    + by rewrite (float_mul_comm c2 c1).
    + apply (cos_error mm Hmm) in H1, H2. by subst.
  - intros Hmm la lo c Hla Hlo Hcos Hc. rewrite haversine_miles_floats.
    rewrite !float_sub_diag by done. rewrite (haversine_zero mm Hmm), Hcos.
    simpl. rewrite float_square_mul_zero by done.
    destruct Hmm as [_ _ _ H4 _ _ _].
    change (math_sqrt (0 + 0)%float) with (Return 0%float : res float).
    change (math_sqrt (1 - (0 + 0))%float) with (Return 1%float : res float).
    simpl. rewrite H4. reflexivity.
Qed.

Lemma haversine_miles_symmetric_witness :
  haversine_miles mirror_math (VFloat 0) (VFloat 0) (VFloat 0) (VFloat 180)
  = Return half_way_round ∧
  haversine_miles mirror_math (VFloat 0) (VFloat 0) (VFloat 0) (VFloat 180)
  = haversine_miles mirror_math (VFloat 0) (VFloat 180) (VFloat 0) (VFloat 0) ∧
  haversine_miles mirror_math (VFloat 0) (VFloat 180) (VFloat 0) (VFloat 180)
  = Return 0%float.
Proof.
  split_and!.
  - vm_compute. reflexivity.
  - exact (proj1 (haversine_miles_symmetric mirror_math)
             mirror_math_symmetry 0%float 0%float 0%float 180%float).
  - apply (proj2 (haversine_miles_symmetric mirror_math)
             mirror_math_standard 0%float 180%float 1%float); reflexivity.
Defined.

(** ** The proximity ranker *)

(** C1: take a C library with the standard values. On the two events of
    [two_events] and the reference point [origin] the call returns both
    events, the one on the far side of the globe first and the one at the
    reference point, whose distance is 0, last: the returned list is not in
    non-decreasing order of [distance_miles]. *)
Theorem event_at_reference_ranked_last (mm : MathModule) (w : World) :
  standard_values mm →
  ∃ s', find_nearest_events mm w origin 5
          (Some [1%positive; 2%positive]) two_events
        = (Return [2%positive; 1%positive], s') ∧
        distance_in (heap s') 2%positive = Some half_way_round ∧
        distance_in (heap s') 1%positive = Some 0%float ∧
        (0 <? half_way_round)%float = true.
Proof.
  intros Hmm.
  rewrite (find_nearest_events_ext mm table_math w quiet_world)
    by eauto using two_events_distances.
  eexists. split_and!; vm_compute; reflexivity.
Qed.

Lemma event_at_reference_ranked_last_witness :
  ∃ s', find_nearest_events table_math quiet_world origin 5
          (Some [1%positive; 2%positive]) two_events
        = (Return [2%positive; 1%positive], s') ∧
        distance_in (heap s') 2%positive = Some half_way_round ∧
        distance_in (heap s') 1%positive = Some 0%float ∧
        (0 <? half_way_round)%float = true.
Proof.
  exact (event_at_reference_ranked_last table_math quiet_world
           table_math_standard).
Defined.

(** C2: take a C library with the standard values. With limit -1 and two
    events the call returns one event, not the empty list: the slice drops
    the last element of the sorted list. *)
Theorem negative_limit_returns_events (mm : MathModule) (w : World) :
  standard_values mm →
  ∃ s', find_nearest_events mm w origin (-1)
          (Some [2%positive; 3%positive]) three_events
        = (Return [2%positive], s').
Proof.
  intros Hmm.
  rewrite (find_nearest_events_ext mm table_math w quiet_world)
    by eauto using three_events_distances.
  eexists. vm_compute. reflexivity.
Qed.

Lemma negative_limit_returns_events_witness :
  ∃ s', find_nearest_events table_math quiet_world origin (-1)
          (Some [2%positive; 3%positive]) three_events
        = (Return [2%positive], s').
Proof.
  exact (negative_limit_returns_events table_math quiet_world
           table_math_standard).
Defined.

(** The distance of an event object of the caller is [None] before the
    call and a number after it. *)
Lemma find_nearest_events_writes_input :
  distance_in (heap two_events) 2%positive = None ∧
  ∃ out s', find_nearest_events table_math quiet_world origin 5
              (Some [1%positive; 2%positive]) two_events = (Return out, s') ∧
            distance_in (heap s') 2%positive = Some half_way_round.
Proof. split; [reflexivity|]. do 2 eexists. split; vm_compute; reflexivity. Qed.

(** C3, as amended: ranking works on the event objects of the caller, not
    on copies. When the call returns, every object of the supplied list
    carries its distance from the reference point in [distance_miles], its
    other fields being as before; the objects that are not in the list are
    as before; no object has been created; the returned list holds
    references from the supplied list; no request has gone out. *)
Theorem find_nearest_events_in_place (mm : MathModule) (w : World)
    (coords : Coordinates) (limit : Z) (events out : list loc) (s s' : state) :
  find_nearest_events mm w coords limit (Some events) s = (Return out, s') →
  (∀ l e, l ∈ events → heap s !! l = Some e →
     ∃ d, distance_from mm coords e = Return d ∧
          heap s' !! l = Some (set_distance_miles e (Some d))) ∧
  (∀ l, l ∉ events → heap s' !! l = heap s !! l) ∧
  dom (heap s') = dom (heap s) ∧
  out ⊆ events ∧
  calls s' = calls s.
Proof.
  intros (-> & Hcalls & Hann)%find_nearest_events_run.
  split_and!; [| | | |done].
  - intros l e Hin Hl. specialize (Hann l). rewrite Hl in Hann.
    by rewrite decide_True in Hann.
  - intros l Hin. specialize (Hann l).
    destruct (heap s !! l); [|done]. by rewrite decide_False in Hann.
  - apply set_eq. intros l. rewrite !elem_of_dom. specialize (Hann l).
    destruct (heap s !! l) as [e|] eqn:Hl.
    + destruct (decide (l ∈ events)).
      * destruct Hann as (d & _ & ->). by split; eauto.
      * rewrite Hann. by split; eauto.
    + rewrite Hann. done.
  - destruct (slice_to_take (sorted events (sort_key (heap s'))) limit)
      as [n ->].
    intros l Hl%subseteq_take. by rewrite sorted_perm in Hl.
Qed.

Lemma find_nearest_events_in_place_witness :
  ∃ s', find_nearest_events table_math quiet_world origin 5
          (Some [2%positive]) two_events = (Return [2%positive], s') ∧
        (∃ d, distance_from table_math origin (event_at 2 0 180) = Return d ∧
              heap s' !! 2%positive
                = Some (set_distance_miles (event_at 2 0 180) (Some d))) ∧
        heap s' !! 1%positive = heap two_events !! 1%positive ∧
        dom (heap s') = dom (heap two_events).
Proof.
  eexists (snd (find_nearest_events table_math quiet_world origin 5
                  (Some [2%positive]) two_events)).
  assert (Hrun : find_nearest_events table_math quiet_world origin 5
                   (Some [2%positive]) two_events
                 = (Return [2%positive],
                    snd (find_nearest_events table_math quiet_world origin 5
                           (Some [2%positive]) two_events)))
    by (vm_compute; reflexivity).
  destruct (find_nearest_events_in_place _ _ _ _ _ _ _ _ Hrun)
    as (Hin & Hout & Hdom & _ & _).
  split_and!; [exact Hrun | | | exact Hdom].
  - apply Hin; [apply list_elem_of_here | reflexivity].
  - apply Hout. intros [?|[]%elem_of_nil]%elem_of_cons. done.
Defined.




(** ** The event feed client *)

Lemma fetch_nes_events_raises_on_null :
  fetch_nes_events null_feed idle = (Raise TypeError, log_call feed_call idle).
Proof. reflexivity. Qed.

(** C4, as amended: when the request fails, when the status is 4xx or 5xx
    and when the decoder rejects the body with [JSONDecodeError],
    [fetch_nes_events] returns the empty list and raises nothing; when the
    body decodes to an array of objects it returns one event per element.
    One request goes out in each case. *)
Theorem fetch_nes_events_outcomes (w : World) (s : state) :
  (feed_unavailable (nes_api w) →
   fetch_nes_events w s = (Return [], log_call feed_call s)) ∧
  (∀ st items,
     nes_api w = Reply st (Json (VList items)) →
     ¬ error_status st →
     Forall is_object items →
     ∃ evs s', fetch_nes_events w s = (Return evs, s') ∧
               length evs = length items ∧
               calls s' = (calls s ++ [feed_call])%list).
Proof.
  unfold fetch_nes_events, feed_call, try_except, bind, requests_get.
  split.
  - destruct (nes_api w) as [|st b]; simpl; [done|].
    intros [Hst | ->].
    + by rewrite raise_for_status_error.
    + destruct (decide (error_status st)) as [Hst|Hst].
      * by rewrite raise_for_status_error.
      * by rewrite raise_for_status_ok.
  - intros st items -> Hst Hitems.
    rewrite raise_for_status_ok by done.
    unfold json, lift, ret; simpl.
    destruct (append_events_objects items Hitems []
                (log_call (HttpGet NES_API_URL []) s)) as (evs & s' & -> & Hlen & Hc).
    exists evs, s'. split_and!; done.
Qed.

Lemma fetch_nes_events_outcomes_witness :
  (feed_unavailable (nes_api quiet_world) →
   fetch_nes_events quiet_world idle = (Return [], log_call feed_call idle)) ∧
  ∃ evs s', fetch_nes_events sample_world idle = (Return evs, s') ∧
            length evs = 3%nat ∧ calls s' = (calls idle ++ [feed_call])%list.
Proof.
  split.
  - exact (proj1 (fetch_nes_events_outcomes quiet_world idle)).
  - destruct (proj2 (fetch_nes_events_outcomes sample_world idle) 200
                sample_items)
      as (evs & s' & Hrun & Hlen & Hcalls).
    + reflexivity.
    + unfold error_status; lia.
    + repeat constructor; eexists; reflexivity.
    + exists evs, s'. split_and!; done.
Defined.

(** ** The geocoding client *)

(** Only the statuses 400 to 599 count as failures: with status 304 or
    600 and a match in the body the client returns the coordinates of the
    match, not [None]. *)
Lemma geocode_address_other_status :
  geocode_address (status_geocoder 304) "1 Main St" idle
  = (Return (Some origin), log_call (geocoder_call "1 Main St") idle) ∧
  geocode_address (status_geocoder 600) "1 Main St" idle
  = (Return (Some origin), log_call (geocoder_call "1 Main St") idle).
Proof. split; reflexivity. Qed.

(** C5, as amended: on a network failure, a 4xx or 5xx status, a body that
    the decoder rejects with [JSONDecodeError] or an empty list of address
    matches, [geocode_address] returns [None] and raises nothing; on a
    reply of any other status with matches it returns the [y] and [x] of
    the coordinates of the first match as [lat] and [lng], whatever the
    other matches are. Exactly one request goes out. *)
Theorem geocode_address_policy (w : World) (address : string) (s : state)
    (r : option Coordinates) :
  geocoder_policy (census_geocoder w address) r →
  geocode_address w address s = (Return r, log_call (geocoder_call address) s).
Proof.
  unfold geocode_address, geocoder_call, try_except, bind, requests_get.
  intros H. inversion H as
    [ Hw | st b Hst Hw | st Hw | st d r0 Hd Hr Hw
    | st d r0 m others c x y Hst Hd Hr Hm Hy Hx Hw]; clear H.
  - done.
  - rewrite raise_for_status_error by done. done.
  - destruct (decide (error_status st)) as [Hst|Hst].
    + rewrite raise_for_status_error by done. done.
    + rewrite raise_for_status_ok by done. done.
  - destruct (decide (error_status st)) as [Hst|Hst].
    + rewrite raise_for_status_error by done. done.
    + rewrite raise_for_status_ok by done.
      unfold json, lift, ret; simpl. rewrite Hd; simpl. rewrite Hr; simpl. done.
  - rewrite raise_for_status_ok by done.
    unfold json, lift, ret; simpl. rewrite Hd; simpl. rewrite Hr; simpl.
    rewrite Hm; simpl. rewrite Hy, Hx; simpl. done.
Qed.

Lemma geocode_address_policy_witness :
  geocoder_policy (census_geocoder sample_world "0 Meridian Rd")
                  (Some {| lat := VFloat 0; lng := VFloat 0 |}) ∧
  geocode_address sample_world "0 Meridian Rd" idle =
    (Return (Some {| lat := VFloat 0; lng := VFloat 0 |}),
     log_call (geocoder_call "0 Meridian Rd") idle).
Proof.
  assert (H : geocoder_policy (census_geocoder sample_world "0 Meridian Rd")
                (Some {| lat := VFloat 0; lng := VFloat 0 |})).
  { simpl. unfold sample_geocoder. simpl.
    eapply first_match; [unfold error_status; lia | reflexivity ..]. }
  split; [exact H | exact (geocode_address_policy _ _ _ _ H)].
Defined.

(** C9: when the reply is a success and its first match is an object with
    no [coordinates] member, or with one that has neither [x] nor [y],
    [geocode_address] does not return [None]: it returns coordinates whose
    [lat] and [lng] are both [None]. *)
Theorem geocode_address_null_coordinates (w : World) (address : string)
    (s : state) (st : Z) (d r m : gmap string pyval) (others : list pyval) :
  census_geocoder w address = Reply st (Json (VDict d)) →
  ¬ error_status st →
  d !! "result" = Some (VDict r) →
  r !! "addressMatches" = Some (VList (VDict m :: others)) →
  (m !! "coordinates" = None ∨
   ∃ c, m !! "coordinates" = Some (VDict c) ∧ c !! "x" = None ∧ c !! "y" = None) →
  geocode_address w address s =
    (Return (Some {| lat := VNone; lng := VNone |}),
     log_call (geocoder_call address) s).
Proof.
  intros Hw Hst Hd Hr Hm.
  unfold geocode_address, geocoder_call, try_except, bind, requests_get.
  rewrite Hw, raise_for_status_ok by done.
  unfold json, lift, ret; simpl. rewrite Hd; simpl. rewrite Hr; simpl.
  destruct Hm as [Hm | (c & Hm & Hx & Hy)]; rewrite Hm; simpl.
  - by rewrite !lookup_empty.
  - by rewrite Hx, Hy.
Qed.

Lemma geocode_address_null_coordinates_witness :
  geocode_address sample_world "no coordinates" idle =
    (Return (Some {| lat := VNone; lng := VNone |}),
     log_call (geocoder_call "no coordinates") idle).
Proof.
  eapply (geocode_address_null_coordinates sample_world "no coordinates" idle 200).
  - reflexivity.
  - unfold error_status; lia.
  - reflexivity.
  - reflexivity.
  - left. reflexivity.
Defined.

(** ** The query orchestrator *)

(** An address that geocodes, here to a match without coordinates, does
    not always give a result: the ranking raises. *)
Lemma find_nearest_by_address_geocoded_raises :
  geocode_address sample_world "no coordinates" idle
  = (Return (Some {| lat := VNone; lng := VNone |}),
     log_call (geocoder_call "no coordinates") idle) ∧
  ∃ s', find_nearest_by_address table_math sample_world "no coordinates" 5 idle
        = (Raise TypeError, s').
Proof. split; [reflexivity|]. eexists. vm_compute. reflexivity. Qed.

(** C6, as amended: when geocoding returns [None],
    [find_nearest_by_address] returns the dict with the two members [error]
    and [query_address] and nothing else: no [coordinates], no [events]; it
    does not ask for the feed. When geocoding returns coordinates, the
    ranking of the live events is run with them; if it returns, the list
    comes back under [events], next to [query_address] and [coordinates];
    if it raises, [find_nearest_by_address] raises the same exception. An
    exception of the geocoding leaves [find_nearest_by_address] as well. *)
Theorem find_nearest_by_address_results (mm : MathModule) (w : World)
    (address : string) (limit : Z) (s : state) :
  (∀ s1,
     geocode_address w address s = (Return None, s1) →
     ∃ d, find_nearest_by_address mm w address limit s = (Return (VDict d), s1) ∧
          d = {[ "error" := VStr "Could not geocode address";
                 "query_address" := VStr address ]} ∧
          d !! "coordinates" = None ∧ d !! "events" = None) ∧
  (∀ coords s1 events s2,
     geocode_address w address s = (Return (Some coords), s1) →
     find_nearest_events mm w coords limit None s1 = (Return events, s2) →
     find_nearest_by_address mm w address limit s =
       (Return (VDict {[ "query_address" := VStr address;
                         "coordinates" := VDict {[ "lat" := lat coords;
                                                   "lng" := lng coords ]};
                         "events" := VList (to_dicts (heap s2) events) ]}),
        s2)) ∧
  (∀ coords s1 err s2,
     geocode_address w address s = (Return (Some coords), s1) →
     find_nearest_events mm w coords limit None s1 = (Raise err, s2) →
     find_nearest_by_address mm w address limit s = (Raise err, s2)) ∧
  (∀ err s1,
     geocode_address w address s = (Raise err, s1) →
     find_nearest_by_address mm w address limit s = (Raise err, s1)).
Proof.
  split_and!.
  - intros s1 Hgeo. eexists. unfold find_nearest_by_address, bind.
    rewrite Hgeo. unfold ret. split_and!; [reflexivity | | |].
    + simpl. by rewrite insert_empty.
    + reflexivity.
    + reflexivity.
  - intros coords s1 events s2 Hgeo Hrank.
    unfold find_nearest_by_address, bind. rewrite Hgeo, Hrank.
    unfold get_heap, ret, to_dicts; simpl. by rewrite insert_empty.
  - intros coords s1 err s2 Hgeo Hrank.
    unfold find_nearest_by_address, bind. by rewrite Hgeo, Hrank.
  - intros err s1 Hgeo.
    unfold find_nearest_by_address, bind. by rewrite Hgeo.
Qed.

Lemma find_nearest_by_address_results_witness :
  (∃ d, find_nearest_by_address table_math sample_world "nowhere" 5 idle =
          (Return (VDict d), log_call (geocoder_call "nowhere") idle) ∧
        d = {[ "error" := VStr "Could not geocode address";
               "query_address" := VStr "nowhere" ]} ∧
        d !! "coordinates" = None ∧ d !! "events" = None) ∧
  (∃ s2, find_nearest_by_address table_math sample_world "0 Meridian Rd" 2 idle =
     (Return (VDict {[ "query_address" := VStr "0 Meridian Rd";
                       "coordinates" := VDict {[ "lat" := VFloat 0;
                                                 "lng" := VFloat 0 ]};
                       "events" := VList (to_dicts (heap s2)
                                            [1%positive; 2%positive]) ]}),
      s2)) ∧
  ∃ s2, find_nearest_by_address table_math sample_world "no coordinates" 2 idle
        = (Raise TypeError, s2).
Proof.
  split_and!.
  - apply (proj1 (find_nearest_by_address_results
                    table_math sample_world "nowhere" 5 idle)).
    reflexivity.
  - eexists.
    apply (proj1 (proj2 (find_nearest_by_address_results
                           table_math sample_world "0 Meridian Rd" 2 idle))
             {| lat := VFloat 0; lng := VFloat 0 |}
             (log_call (geocoder_call "0 Meridian Rd") idle)).
    + reflexivity.
    + vm_compute. reflexivity.
  - eexists.
    apply (proj1 (proj2 (proj2 (find_nearest_by_address_results
                                  table_math sample_world "no coordinates" 2 idle)))
             {| lat := VNone; lng := VNone |}
             (log_call (geocoder_call "no coordinates") idle)).
    + reflexivity.
    + vm_compute. reflexivity.
Defined.

(** ** The HTTP boundary *)

(** C10: a request to [/nearest] or [/geocode] whose [address] parameter is
    the empty string is answered with status 400 and an error body, the
    state is left as it was, so no request went to the geocoder, and the
    answer is the one given when the parameter is absent. *)
Theorem empty_address_is_missing (mm : MathModule) (w : World)
    (int_of_str : string → option Z) (args : gmap string string) (s : state) :
  args !! "address" = Some "" →
  nearest mm w int_of_str args s = (Return missing_address, s) ∧
  geocode w args s = (Return missing_address, s) ∧
  nearest mm w int_of_str args s =
    nearest mm w int_of_str (delete "address" args) s ∧
  geocode w args s = geocode w (delete "address" args) s.
Proof.
  intros Hargs. unfold nearest, geocode, args_get.
  rewrite Hargs, lookup_delete_eq; simpl.
  unfold ret, missing_address, jsonify; simpl.
  by rewrite insert_empty.
Qed.

Lemma empty_address_is_missing_witness :
  empty_address_args !! "address" = Some "" ∧
  nearest table_math sample_world (λ _, Some 3) empty_address_args idle
    = (Return missing_address, idle) ∧
  geocode sample_world empty_address_args idle = (Return missing_address, idle).
Proof.
  destruct (empty_address_is_missing table_math sample_world (λ _, Some 3)
              empty_address_args idle) as (H1 & H2 & _); [reflexivity|].
  split_and!; [reflexivity | exact H1 | exact H2].
Defined.

(** * Further properties *)

(** ** The loop of the ranker *)

Lemma for_each_app {A} (body : A → M unit) (l1 l2 : list A) (s : state) :
  for_each (l1 ++ l2) body s =
    match for_each l1 body s with
    | (Return _, s1) => for_each l2 body s1
    | r => r
    end.
Proof.
  revert s. induction l1 as [|x l1 IH]; intros s; simpl; [done|].
  unfold bind. destruct (body x s) as [[[]|err] s1]; [apply IH | done].
Qed.

Lemma state_eta (s : state) : {| heap := heap s; calls := calls s |} = s.
Proof. by destruct s. Qed.

(** A heap in which the objects behind [events] carry their distance from
    [coords] is left as it is by the loop. *)
Lemma for_each_annotate_fixed (mm : MathModule) (coords : Coordinates)
    (events : list loc) (s : state) :
  (∀ l e, l ∈ events → heap s !! l = Some e →
     ∃ d, distance_from mm coords e = Return d ∧ distance_miles e = Some d) →
  for_each events (annotate mm coords) s = (Return tt, s).
Proof.
  induction events as [|x events IH]; intros Hd; simpl; [done|].
  unfold bind. rewrite annotate_run.
  assert (for_each events (annotate mm coords) s = (Return tt, s)) as Hrest.
  { apply IH. intros l e Hl. apply Hd. by apply list_elem_of_further. }
  destruct (heap s !! x) as [e|] eqn:Hx; [|done].
  destruct (Hd x e) as (d & -> & Hde); [apply list_elem_of_here | done |].
  assert (set_distance_miles e (Some d) = e) as ->
    by (unfold set_distance_miles; destruct e; simpl in *; by subst).
  by rewrite insert_id, state_eta.
Qed.

(** X1: when [find_nearest_events] returns, the list has
    [min(limit, len(events))] elements for a limit of 0 or more, and
    [max(0, len(events) + limit)] elements for a negative limit. *)
Theorem find_nearest_events_count (mm : MathModule) (w : World)
    (coords : Coordinates) (limit : Z) (events out : list loc) (s s' : state) :
  find_nearest_events mm w coords limit (Some events) s = (Return out, s') →
  Z.of_nat (length out) =
    if limit <? 0 then Z.max 0 (Z.of_nat (length events) + limit)
    else Z.min limit (Z.of_nat (length events)).
Proof.
  intros (-> & _ & _)%find_nearest_events_run.
  pose proof (Permutation_length (sorted_perm (sort_key (heap s')) events)) as <-.
  destruct (Z.ltb_spec limit 0).
  - rewrite slice_to_length_neg by done. lia.
  - rewrite slice_to_length by done. lia.
Qed.

Lemma three_events_run (limit : Z) :
  find_nearest_events table_math quiet_world origin limit
    (Some [1%positive; 2%positive; 3%positive]) three_events
  = (Return (slice_to [2%positive; 3%positive; 1%positive] limit),
     ranked [1%positive; 2%positive; 3%positive] three_events).
Proof.
  unfold find_nearest_events, bind. unfold ret at 1.
  replace (for_each [1%positive; 2%positive; 3%positive]
             (annotate table_math origin) three_events)
    with (Return tt, ranked [1%positive; 2%positive; 3%positive] three_events)
    by (vm_compute; reflexivity).
  unfold get_heap, ret. simpl.
  by replace (sorted [1%positive; 2%positive; 3%positive]
                (sort_key (heap (ranked [1%positive; 2%positive; 3%positive]
                                   three_events))))
    with [2%positive; 3%positive; 1%positive] by (vm_compute; reflexivity).
Qed.

Lemma find_nearest_events_count_witness :
  Z.of_nat (length (slice_to [2%positive; 3%positive; 1%positive] 2)) = 2.
Proof.
  exact (find_nearest_events_count _ _ _ 2 _ _ _ _ (three_events_run 2)).
Defined.

Lemma find_nearest_events_Sorted_witness :
  key_le (sort_key
            (heap (ranked [1%positive; 2%positive; 3%positive] three_events)))
         3%positive 1%positive.
Proof.
  apply (find_nearest_events_Sorted _ _ _ 5 _ _ _ _ 1 2 _ _ (three_events_run 5)).
  - intros l d Hl Hd.
    repeat (apply elem_of_cons in Hl as [->|Hl]);
      [vm_compute in Hd; injection Hd as <-; reflexivity.. |].
    by apply elem_of_nil in Hl.
  - lia.
  - reflexivity.
  - reflexivity.
Defined.

Lemma find_nearest_events_populated_witness :
  ∃ d, distance_in
         (heap (ranked [1%positive; 2%positive; 3%positive] three_events))
         3%positive = Some d.
Proof.
  apply (find_nearest_events_populated _ _ _ 5 _ _ _ _ _ (three_events_run 5)).
  - vm_compute. apply list_elem_of_further, list_elem_of_here.
  - by eexists.
Defined.

Lemma find_nearest_events_returns_witness :
  ∃ out s', find_nearest_events table_math quiet_world origin 5
              (Some [2%positive; 3%positive]) three_events = (Return out, s').
Proof.
  apply find_nearest_events_returns. intros l e _ Hl.
  unfold three_events in Hl; simpl in Hl.
  apply lookup_insert_Some in Hl as [[_ <-]|[_ Hl]]; [by eexists|].
  apply lookup_insert_Some in Hl as [[_ <-]|[_ Hl]]; [by eexists|].
  apply lookup_insert_Some in Hl as [[_ <-]|[_ Hl]]; [by eexists|].
  by rewrite lookup_empty in Hl.
Defined.

(** X5: when the distance of an event of the list cannot be computed, and
    it can for the events before it, [find_nearest_events] raises the
    exception of that event; by then the events before it carry their
    distance, and nothing else has changed. *)
Theorem find_nearest_events_raises (mm : MathModule) (w : World)
    (coords : Coordinates) (limit : Z) (before after : list loc) (x : loc)
    (e : OutageEvent) (err : exn) (s : state) :
  (∀ l e', l ∈ before → heap s !! l = Some e' →
     ∃ d, distance_from mm coords e' = Return d) →
  heap s !! x = Some e →
  distance_from mm coords e = Raise err →
  ∃ s', find_nearest_events mm w coords limit (Some (before ++ x :: after)) s
        = (Raise err, s') ∧
        annotated mm coords before (heap s) (heap s') ∧
        calls s' = calls s.
Proof.
  intros Hbefore Hx He.
  destruct (for_each_annotate_returns mm coords before s Hbefore) as [s1 Hloop].
  destruct (for_each_annotate mm coords before s s1 Hloop) as [Hcalls Hann].
  exists s1. split_and!; [|done..].
  unfold find_nearest_events, bind. unfold ret at 1.
  rewrite for_each_app, Hloop. simpl. unfold bind. rewrite annotate_run.
  pose proof (Hann x) as Hx1. rewrite Hx in Hx1.
  destruct (decide (x ∈ before)).
  - destruct Hx1 as (d & Hd & _). congruence.
  - by rewrite Hx1, He.
Qed.

Lemma find_nearest_events_raises_witness :
  ∃ s', find_nearest_events table_math quiet_world origin 5
          (Some ([2%positive] ++ 4%positive :: [1%positive])) with_unlocated
        = (Raise TypeError, s') ∧
        annotated table_math origin [2%positive]
          (heap with_unlocated) (heap s') ∧
        calls s' = calls with_unlocated.
Proof.
  apply (find_nearest_events_raises _ _ _ _ _ _ _ (unlocated_event 4)).
  - intros l e' [->|[]%elem_of_nil]%elem_of_cons Hl.
    vm_compute in Hl. injection Hl as <-. by eexists.
  - reflexivity.
  - reflexivity.
Defined.

(** X6: for limits of 0 or more, the result for the smaller limit is the
    beginning of the result for the larger one, and both calls leave the
    same state. *)
Theorem find_nearest_events_limit_prefix (mm : MathModule) (w : World)
    (coords : Coordinates) (limit1 limit2 : Z) (events out1 out2 : list loc)
    (s s1 s2 : state) :
  0 ≤ limit1 ≤ limit2 →
  find_nearest_events mm w coords limit1 (Some events) s = (Return out1, s1) →
  find_nearest_events mm w coords limit2 (Some events) s = (Return out2, s2) →
  s1 = s2 ∧ out1 = take (Z.to_nat limit1) out2.
Proof.
  intros Hlim. unfold find_nearest_events, bind. unfold ret at 1 3.
  destruct (for_each events (annotate mm coords) s) as [[[]|err] s0]; [|done].
  unfold get_heap, ret. intros [= <- <-] [= <- <-]. split; [done|].
  unfold slice_to.
  destruct (Z.ltb_spec limit1 0), (Z.ltb_spec limit2 0); try lia.
  rewrite take_take. f_equal. lia.
Qed.

Lemma find_nearest_events_limit_prefix_witness :
  slice_to [2%positive; 3%positive; 1%positive] 1
  = take (Z.to_nat 1) (slice_to [2%positive; 3%positive; 1%positive] 2).
Proof.
  refine (proj2 (find_nearest_events_limit_prefix _ _ _ 1 2 _ _ _ _ _ _ _
                   (three_events_run 1) (three_events_run 2))). lia.
Defined.

(** X7: ranking again from the same reference point changes nothing: a
    second call on the state left by the first returns the same list and
    leaves that state as it is. *)
Theorem find_nearest_events_idempotent (mm : MathModule) (w : World)
    (coords : Coordinates) (limit : Z) (events out : list loc) (s s' : state) :
  find_nearest_events mm w coords limit (Some events) s = (Return out, s') →
  find_nearest_events mm w coords limit (Some events) s' = (Return out, s').
Proof.
  intros (-> & _ & Hann)%find_nearest_events_run.
  unfold find_nearest_events, bind. unfold ret at 1.
  rewrite for_each_annotate_fixed; [done|].
  intros l e' Hl He'. specialize (Hann l).
  destruct (heap s !! l) as [e|]; [|congruence].
  rewrite decide_True in Hann by done. destruct Hann as (d & Hd & Hl').
  exists d. rewrite Hl' in He'. injection He' as <-. done.
Qed.

Lemma find_nearest_events_idempotent_witness :
  find_nearest_events table_math quiet_world origin 2
    (Some [1%positive; 2%positive; 3%positive])
    (ranked [1%positive; 2%positive; 3%positive] three_events)
  = (Return (slice_to [2%positive; 3%positive; 1%positive] 2),
     ranked [1%positive; 2%positive; 3%positive] three_events).
Proof.
  exact (find_nearest_events_idempotent _ _ _ _ _ _ _ _ (three_events_run 2)).
Defined.

(** ** The distance calculator *)

Lemma res_bind_Return {A B} (r : res A) (k : A → res B) (b : B) :
  res_bind r k = Return b → ∃ a, r = Return a ∧ k a = Return b.
Proof. destruct r as [a|]; [eauto | done]. Qed.

Lemma as_double_number (v : pyval) (x : float) :
  as_double v = Return x → is_number v.
Proof. by destruct v. Qed.

Lemma py_sub_number (a b v : pyval) :
  py_sub a b = Return v → is_number a ∧ is_number b.
Proof. by destruct a, b. Qed.

(** X8: [haversine_miles] returns a distance only when its four arguments
    are numbers; with [None], a string, a list or a dict among them it
    raises, whatever the C library is. *)
Theorem haversine_miles_numbers (mm : MathModule) (lat1 lng1 lat2 lng2 : pyval)
    (d : float) :
  haversine_miles mm lat1 lng1 lat2 lng2 = Return d →
  is_number lat1 ∧ is_number lng1 ∧ is_number lat2 ∧ is_number lng2.
Proof.
  unfold haversine_miles, math_radians. intros H.
  apply res_bind_Return in H as (lat1_rad & H1 & H).
  apply res_bind_Return in H1 as (x1 & H1%as_double_number & _).
  apply res_bind_Return in H as (lat2_rad & H2 & H).
  apply res_bind_Return in H2 as (x2 & H2%as_double_number & _).
  apply res_bind_Return in H as (dlat & _ & H).
  apply res_bind_Return in H as (delta_lat & _ & H).
  apply res_bind_Return in H as (dlng & [H3 H4]%py_sub_number & _).
  done.
Qed.

Lemma haversine_miles_numbers_witness :
  is_number (VFloat 0) ∧ is_number (VFloat 0) ∧
  is_number (VFloat 0) ∧ is_number (VFloat 180).
Proof.
  apply (haversine_miles_numbers table_math _ _ _ _ half_way_round).
  vm_compute. reflexivity.
Defined.

(** X9: a record of the feed without [latitude] and [longitude] gives an
    event that is ranked, from a reference point with float coordinates, as
    if it were at latitude 0.0 and longitude 0.0. *)
Theorem event_without_position (mm : MathModule) (d : gmap string pyval)
    (la lo : float) :
  d !! "latitude" = None →
  d !! "longitude" = None →
  ∃ e, event_of_item (VDict d) = Return e ∧
       distance_from mm {| lat := VFloat la; lng := VFloat lo |} e
       = haversine_miles mm (VFloat la) (VFloat lo) (VFloat 0) (VFloat 0).
Proof.
  intros Hla Hlo. eexists. split; [reflexivity|].
  unfold distance_from; simpl. rewrite Hla, Hlo. reflexivity.
Qed.

Lemma event_without_position_witness :
  ∃ e, event_of_item (VDict {[ "id" := VInt 3 ]}) = Return e ∧
       distance_from table_math origin e
       = haversine_miles table_math (VFloat 0) (VFloat 0) (VFloat 0) (VFloat 0).
Proof.
  apply (event_without_position table_math {[ "id" := VInt 3 ]} 0 0);
    reflexivity.
Defined.

(** ** The event feed client *)

Lemma new_event_run (e : OutageEvent) (s : state) :
  new_event e s =
    (Return (fresh (dom (heap s))),
     {| heap := <[fresh (dom (heap s)) := e]> (heap s); calls := calls s |}).
Proof. done. Qed.

Lemma fresh_lookup (h : gmap loc OutageEvent) : h !! fresh (dom h) = None.
Proof. apply not_elem_of_dom, is_fresh. Qed.

Lemma append_events_alloc (items : list pyval) :
  Forall is_object items →
  ∀ (acc : list loc) (s : state),
    ∃ new s', append_events items acc s = (Return (acc ++ new), s') ∧
              calls s' = calls s ∧
              NoDup new ∧
              (∀ l, l ∈ new → heap s !! l = None) ∧
              keeps (heap s) (heap s') ∧
              Forall2 (holds_item (heap s')) new items.
Proof.
  induction 1 as [|item items Hitem _ IH]; intros acc s; simpl.
  - exists [], s. rewrite app_nil_r. unfold ret.
    split_and!; [done | done | constructor | by intros l ?%elem_of_nil
                | by intros ? | constructor].
  - destruct (event_of_item_object item Hitem) as [e He].
    unfold bind, lift at 1. rewrite He, new_event_run.
    set (l0 := fresh (dom (heap s))).
    edestruct (IH (acc ++ [l0])) as (new & s' & -> & Hcalls & Hnd & Hfresh & Hkeep & Hall).
    simpl in *. exists (l0 :: new), s'.
    assert (heap s' !! l0 = Some e) as Hl0 by (apply Hkeep, lookup_insert_eq).
    split_and!.
    + by rewrite <- app_assoc.
    + done.
    + constructor; [|done]. intros Hin%Hfresh.
      by rewrite lookup_insert_eq in Hin.
    + intros l [->|Hin%Hfresh]%elem_of_cons; [apply fresh_lookup|].
      apply lookup_insert_None in Hin as [? _]. done.
    + intros l e' Hl. apply Hkeep. rewrite lookup_insert_ne; [done|].
      intros <-. unfold l0 in Hl. by rewrite fresh_lookup in Hl.
    + constructor; [by exists e | done].
Qed.

(** X10: on a JSON array of objects [fetch_nes_events] creates one event
    object per element, in the order of the array: the references it
    returns are pairwise distinct, were not in use before, and each refers
    to the event read from its element; the objects that existed before are
    untouched. *)
Theorem fetch_nes_events_creates (w : World) (s : state) (st : Z)
    (items : list pyval) :
  nes_api w = Reply st (Json (VList items)) →
  ¬ error_status st →
  Forall is_object items →
  ∃ evs s', fetch_nes_events w s = (Return evs, s') ∧
            NoDup evs ∧
            (∀ l, l ∈ evs → heap s !! l = None) ∧
            keeps (heap s) (heap s') ∧
            Forall2 (holds_item (heap s')) evs items.
Proof.
  intros Hw Hst Hitems.
  unfold fetch_nes_events, try_except, bind, requests_get. rewrite Hw.
  rewrite raise_for_status_ok by done. unfold json, lift, ret; simpl.
  destruct (append_events_alloc items Hitems []
              (log_call (HttpGet NES_API_URL []) s))
    as (new & s' & -> & _ & Hnd & Hfresh & Hkeep & Hall).
  exists new, s'. split_and!; done.
Qed.

Lemma fetch_nes_events_creates_witness :
  ∃ evs s', fetch_nes_events sample_world two_events = (Return evs, s') ∧
            NoDup evs ∧
            (∀ l, l ∈ evs → heap two_events !! l = None) ∧
            keeps (heap two_events) (heap s') ∧
            Forall2 (holds_item (heap s')) evs sample_items.
Proof.
  apply (fetch_nes_events_creates sample_world two_events 200 sample_items).
  - reflexivity.
  - unfold error_status; lia.
  - repeat constructor; eexists; reflexivity.
Defined.

Lemma event_of_item_cases (item : pyval) :
  (∃ e, event_of_item item = Return e) ∨ event_of_item item = Raise AttributeError.
Proof. destruct item; simpl; eauto. Qed.

Lemma append_events_effects (items : list pyval) (acc : list loc) (s : state) :
  ∃ r s', append_events items acc s = (r, s') ∧
          calls s' = calls s ∧
          keeps (heap s) (heap s') ∧
          match r with
          | Return _ => True
          | Raise err => err = AttributeError
          end.
Proof.
  revert acc s. induction items as [|item items IH]; intros acc s; simpl.
  - exists (Return acc), s. split_and!; [done | done | by intros ? | done].
  - unfold bind, lift at 1.
    destruct (event_of_item_cases item) as [[e ->] | ->].
    + rewrite new_event_run.
      edestruct IH as (r & s' & -> & Hcalls & Hkeep & Hr).
      exists r, s'. split_and!; [done | done | | done].
      intros l e' Hl. apply Hkeep. simpl. rewrite lookup_insert_ne; [done|].
      intros <-. by rewrite fresh_lookup in Hl.
    + exists (Raise AttributeError), s. split_and!; [done | done | by intros ? | done].
Qed.

Lemma fetch_list_run (w : World) (s : state) (st : Z) (items : list pyval) :
  nes_api w = Reply st (Json (VList items)) →
  ¬ error_status st →
  fetch_nes_events w s = append_events items [] (log_call feed_call s).
Proof.
  intros Hw Hst.
  unfold fetch_nes_events, feed_call, try_except, bind, requests_get. rewrite Hw.
  rewrite raise_for_status_ok by done. unfold json, lift, ret; simpl.
  destruct (append_events_effects items [] (log_call (HttpGet NES_API_URL []) s))
    as (r & s' & -> & _ & _ & Hr).
  destruct r as [evs|err]; [done|]. by subst.
Qed.


(** ** The geocoding client *)


(** X13: [geocode_address] returns [None] when the reply is an object that
    gives no usable list of matches: [result] or [addressMatches] is
    missing, so that the empty default applies, or [addressMatches] is
    falsy ([null], [false], 0, the empty string, list or object), or it is
    an object, on which [matches[0]] raises the [KeyError] that is caught. *)
Theorem geocode_address_no_match (w : World) (address : string) (s : state)
    (st : Z) (d r : gmap string pyval) (matches : pyval) :
  census_geocoder w address = Reply st (Json (VDict d)) →
  default (VDict ∅) (d !! "result") = VDict r →
  default (VList []) (r !! "addressMatches") = matches →
  truthy matches = false ∨ is_object matches →
  geocode_address w address s
  = (Return None, log_call (geocoder_call address) s).
Proof.
  intros Hw Hd Hr Hm.
  unfold geocode_address, geocoder_call, try_except, bind, requests_get.
  rewrite Hw. destruct (decide (error_status st)) as [Hst|Hst].
  { by rewrite raise_for_status_error. }
  rewrite raise_for_status_ok by done.
  unfold json, lift, ret; simpl. rewrite Hd; simpl. rewrite Hr.
  destruct (truthy matches) eqn:Ht; simpl; [|done].
  destruct Hm as [?|[m ->]]; [done|]. done.
Qed.

Lemma geocode_address_no_match_witness :
  geocode_address
    {| nes_api := NoReply;
       census_geocoder := λ _, Reply 200 (Json (VDict {[ "result" :=
         VDict {[ "addressMatches" := VDict {[ "0" := VStr "x" ]} ]} ]})) |}
    "1 Main St" idle
  = (Return None, log_call (geocoder_call "1 Main St") idle).
Proof.
  eapply (geocode_address_no_match _ _ _ 200); [reflexivity..|].
  right. by eexists.
Defined.

(** ** The query orchestrator *)

Lemma fetch_unavailable_run (w : World) (s : state) :
  feed_unavailable (nes_api w) →
  fetch_nes_events w s = (Return [], log_call feed_call s).
Proof.
  unfold fetch_nes_events, feed_call, try_except, bind, requests_get.
  destruct (nes_api w) as [|st b]; simpl; [done|].
  destruct (decide (error_status st)) as [Hst|Hst].
  - by rewrite raise_for_status_error.
  - rewrite raise_for_status_ok by done. by intros [?| ->].
Qed.

Lemma math_radians_not_number (v : pyval) :
  ¬ is_number v → math_radians v = Raise TypeError.
Proof. by destruct v. Qed.

(** X14: when geocoding gives coordinates whose latitude is not a number,
    as it does for a match without coordinates, and the feed has at least
    one record, [find_nearest_by_address] raises [TypeError]: the first
    distance cannot be computed. *)
Theorem find_nearest_by_address_raises (mm : MathModule) (w : World)
    (address : string) (limit : Z) (s s1 : state) (coords : Coordinates)
    (st : Z) (item : pyval) (items : list pyval) :
  geocode_address w address s = (Return (Some coords), s1) →
  ¬ is_number (lat coords) →
  nes_api w = Reply st (Json (VList (item :: items))) →
  ¬ error_status st →
  Forall is_object (item :: items) →
  ∃ s', find_nearest_by_address mm w address limit s = (Raise TypeError, s').
Proof.
  intros Hgeo Hlat Hw Hst Hitems.
  unfold find_nearest_by_address, bind. rewrite Hgeo.
  unfold find_nearest_events, bind.
  rewrite (fetch_list_run w s1 st (item :: items)) by done.
  destruct (append_events_alloc (item :: items) Hitems [] (log_call feed_call s1))
    as (new & s2 & Happ & _ & _ & _ & _ & Hall).
  rewrite Happ.
  inversion Hall as [|l0 it new' its (e & _ & Hl0) _]; subst.
  cbv beta iota. cbn [app for_each]. unfold bind. rewrite annotate_run, Hl0.
  unfold distance_from, haversine_miles.
  rewrite math_radians_not_number by done. simpl. by eexists.
Qed.

Lemma find_nearest_by_address_raises_witness :
  ∃ s', find_nearest_by_address table_math sample_world "no coordinates" 5 idle
        = (Raise TypeError, s').
Proof.
  eapply (find_nearest_by_address_raises _ _ _ _ _ _ _ 200).
  - reflexivity.
  - simpl. tauto.
  - reflexivity.
  - unfold error_status; lia.
  - repeat constructor; eexists; reflexivity.
Defined.

(** X15: when geocoding gives coordinates and the feed is unavailable (no
    reply, a 4xx or 5xx status, or a body that the decoder rejects with
    [JSONDecodeError]), [find_nearest_by_address] answers with these
    coordinates and an empty list of events: the failure of the feed does
    not show. Two requests have gone out, the second one to the feed. *)
Theorem find_nearest_by_address_feed_down (mm : MathModule) (w : World)
    (address : string) (limit : Z) (s s1 : state) (coords : Coordinates) :
  geocode_address w address s = (Return (Some coords), s1) →
  feed_unavailable (nes_api w) →
  find_nearest_by_address mm w address limit s =
    (Return (VDict {[ "query_address" := VStr address;
                      "coordinates" := VDict {[ "lat" := lat coords;
                                                "lng" := lng coords ]};
                      "events" := VList [] ]}),
     log_call feed_call s1).
Proof.
  intros Hgeo Hfeed.
  unfold find_nearest_by_address, bind. rewrite Hgeo.
  unfold find_nearest_events, bind. rewrite fetch_unavailable_run by done.
  simpl. unfold ret, get_heap; simpl.
  rewrite sorted_nil. unfold slice_to.
  destruct (limit <? 0); simpl; by rewrite take_nil, !insert_empty.
Qed.

Lemma find_nearest_by_address_feed_down_witness :
  find_nearest_by_address table_math
    {| nes_api := Reply 503 NotJson; census_geocoder := sample_geocoder |}
    "0 Meridian Rd" 5 idle =
    (Return (VDict {[ "query_address" := VStr "0 Meridian Rd";
                      "coordinates" := VDict {[ "lat" := VFloat 0;
                                                "lng" := VFloat 0 ]};
                      "events" := VList [] ]}),
     log_call feed_call (log_call (geocoder_call "0 Meridian Rd") idle)).
Proof.
  apply (find_nearest_by_address_feed_down table_math _ _ _ _ _
           {| lat := VFloat 0; lng := VFloat 0 |}).
  - reflexivity.
  - left. unfold error_status. lia.
Defined.

(** ** The HTTP boundary *)

Lemma truthy_str (a : string) : a ≠ "" → truthy (VStr a) = true.
Proof. intros Ha. simpl. by destruct (String.eqb_spec a ""). Qed.

(** X16: a request to [/nearest] with an address and a [limit] that is not
    an integer is answered with status 400 and an error body; nothing is
    sent to the geocoder or the feed. *)
Theorem nearest_invalid_limit (mm : MathModule) (w : World)
    (int_of_str : string → option Z) (args : gmap string string)
    (address limit : string) (s : state) :
  args !! "address" = Some address →
  address ≠ "" →
  args !! "limit" = Some limit →
  int_of_str limit = None →
  nearest mm w int_of_str args s = (Return invalid_limit, s).
Proof.
  intros Ha Hne Hl Hint. unfold nearest, args_get. rewrite Ha.
  change (from_option VStr VNone (Some address)) with (VStr address).
  rewrite truthy_str by done. simpl. rewrite Hl, Hint.
  unfold ret, invalid_limit, jsonify; simpl. by rewrite insert_empty.
Qed.

Lemma nearest_invalid_limit_witness :
  nearest table_math sample_world sample_int bad_limit_args idle
  = (Return invalid_limit, idle).
Proof.
  by apply (nearest_invalid_limit _ _ _ _ "0 Meridian Rd" "many").
Defined.

(** X17: a request to [/nearest] without [limit] is answered as one with a
    [limit] that reads as 5. *)
Theorem nearest_default_limit (mm : MathModule) (w : World)
    (int_of_str : string → option Z) (args : gmap string string)
    (limit : string) (s : state) :
  args !! "limit" = None →
  int_of_str limit = Some 5 →
  nearest mm w int_of_str args s
  = nearest mm w int_of_str (<["limit" := limit]> args) s.
Proof.
  intros Hl Hint. unfold nearest, args_get.
  rewrite lookup_insert_ne by done. rewrite lookup_insert_eq, Hl, Hint. done.
Qed.

Lemma nearest_default_limit_witness :
  nearest table_math sample_world sample_int address_args idle
  = nearest table_math sample_world sample_int
      (<["limit" := "5"]> address_args) idle.
Proof. by apply nearest_default_limit. Defined.

(** X18: whenever the handler of [/nearest] answers, the status is 200, 400
    or 404; it is 200 exactly when the body has no [error] member; and with
    400 no request has gone out. *)
Theorem nearest_status (mm : MathModule) (w : World)
    (int_of_str : string → option Z) (args : gmap string string)
    (s s' : state) (body : pyval) (status : Z) :
  nearest mm w int_of_str args s = (Return (body, status), s') →
  (status = 200 ∨ status = 400 ∨ status = 404) ∧
  (status = 200 ↔ py_in "error" body = false) ∧
  (status = 400 → s' = s).
Proof.
  unfold nearest.
  destruct (negb (truthy (args_get args "address"))).
  { unfold ret. intros [= <- <- <-]. split_and!; [auto | | done].
    split; [done|]. intros H. vm_compute in H. done. }
  destruct (match args !! "limit" with Some l => int_of_str l | None => Some 5 end)
    as [limit|].
  2: { unfold ret. intros [= <- <- <-]. split_and!; [auto | | done].
       split; [done|]. intros H. vm_compute in H. done. }
  unfold bind.
  destruct (find_nearest_by_address mm w _ limit s) as [[result|err] s1]; [|done].
  destruct (py_in "error" result) eqn:Hin; unfold ret; intros [= <- <- <-].
  - split_and!; [auto | | done]. split; [done | congruence].
  - split_and!; [auto | done | done].
Qed.

Lemma nearest_status_witness :
  (404 = 200 ∨ 404 = 400 ∨ 404 = 404) ∧
  (404 = 200 ↔
   py_in "error" (VDict {[ "error" := VStr "Could not geocode address";
                           "query_address" := VStr "nowhere" ]}) = false) ∧
  (404 = 400 → log_call (geocoder_call "nowhere") idle = idle).
Proof.
  apply (nearest_status table_math sample_world sample_int
           {[ "address" := "nowhere" ]} idle).
  vm_compute. reflexivity.
Defined.

(** X19: when the feed is unavailable (no reply, a 4xx or 5xx status, or a
    body that the decoder rejects with [JSONDecodeError]) the handler of
    [/events] answers with status 200, a count of 0 and an empty list,
    after one request to the feed. *)
Theorem events_feed_down (w : World) (s : state) :
  feed_unavailable (nes_api w) →
  events w s
  = (Return (VDict {[ "count" := VInt 0; "events" := VList [] ]}, 200),
     log_call feed_call s).
Proof.
  intros Hfeed. unfold events, bind. rewrite fetch_unavailable_run by done.
  unfold get_heap, ret, jsonify; simpl. by rewrite insert_empty.
Qed.

Lemma events_feed_down_witness :
  events feed_down idle
  = (Return (VDict {[ "count" := VInt 0; "events" := VList [] ]}, 200),
     log_call feed_call idle).
Proof.
  apply (events_feed_down feed_down idle). left. unfold error_status. lia.
Defined.

Lemma to_dicts_held (h : gmap loc OutageEvent) (evs : list loc)
    (items : list pyval) :
  Forall2 (holds_item h) evs items →
  ∃ es, omap (λ e, to_dict <$> h !! e) evs = to_dict <$> es ∧
        Forall2 (λ e item, event_of_item item = Return e) es items.
Proof.
  induction 1 as [|l item evs items (e & He & Hl) _ (es & Hes & Hall)].
  - by exists [].
  - exists (e :: es). split; [|by constructor].
    simpl. rewrite Hl; simpl. f_equal. exact Hes.
Qed.

(** X20: on a JSON array of objects the handler of [/events] answers with
    status 200, the number of records as [count], and under [events] the
    serialised events read from the records, one per record and in the
    order of the feed. *)
Theorem events_lists_feed (w : World) (s : state) (st : Z) (items : list pyval) :
  nes_api w = Reply st (Json (VList items)) →
  ¬ error_status st →
  Forall is_object items →
  ∃ es s',
    Forall2 (λ e item, event_of_item item = Return e) es items ∧
    events w s
    = (Return (VDict {[ "count" := VInt (Z.of_nat (length items));
                        "events" := VList (to_dict <$> es) ]}, 200),
       s').
Proof.
  intros Hw Hst Hitems. unfold events, bind.
  rewrite (fetch_list_run w s st items) by done.
  destruct (append_events_alloc items Hitems [] (log_call feed_call s))
    as (evs & s' & -> & _ & _ & _ & _ & Hall).
  destruct (to_dicts_held _ _ _ Hall) as (es & Hes & Hread).
  exists es, s'. split; [done|].
  unfold get_heap, ret, jsonify; simpl. rewrite Hes, insert_empty.
  by rewrite (Forall2_length _ _ _ Hall).
Qed.

Lemma events_lists_feed_witness :
  ∃ es s',
    Forall2 (λ e item, event_of_item item = Return e) es sample_items ∧
    events sample_world idle
    = (Return (VDict {[ "count" := VInt (Z.of_nat (length sample_items));
                        "events" := VList (to_dict <$> es) ]}, 200),
       s').
Proof.
  apply (events_lists_feed sample_world idle 200 sample_items).
  - reflexivity.
  - unfold error_status; lia.
  - repeat constructor; eexists; reflexivity.
Defined.

(** X21: whenever the handler of [/geocode] answers, the status is 200, 400
    or 404; with 400 no request has gone out; with 404 the body is the
    single member [error]; with 200 the body has the address as it was
    given and the coordinates that [geocode_address] returned for it. *)
Theorem geocode_status (w : World) (args : gmap string string) (s s' : state)
    (body : pyval) (status : Z) :
  geocode w args s = (Return (body, status), s') →
  (status = 400 ∧ s' = s ∧ (body, status) = missing_address) ∨
  (status = 404 ∧ (body, status) = not_geocoded ∧
   ∃ address, args !! "address" = Some address ∧
              geocode_address w address s = (Return None, s')) ∨
  (status = 200 ∧
   ∃ address coords,
     args !! "address" = Some address ∧
     geocode_address w address s = (Return (Some coords), s') ∧
     body = VDict {[ "address" := VStr address;
                     "coordinates" := VDict {[ "lat" := lat coords;
                                               "lng" := lng coords ]} ]}).
Proof.
  unfold geocode, args_get.
  destruct (args !! "address") as [address|] eqn:Ha; unfold from_option.
  2: { simpl. unfold ret, jsonify. intros [= <- <- <-]. left.
       split_and!; [done..|]. simpl. by rewrite insert_empty. }
  destruct (negb (truthy (VStr address))).
  { unfold ret, jsonify. cbv beta iota. intros [= <- <- <-]. left.
    split_and!; [done..|]. simpl. by rewrite insert_empty. }
  unfold bind. simpl str_of.
  destruct (geocode_address w address s) as [[[coords|]|err] s1] eqn:Hgeo;
    [| |done].
  - unfold ret, jsonify. intros [= <- <- <-]. right. right.
    split; [done|]. exists address, coords. split_and!; [done..|].
    simpl. by rewrite !insert_empty.
  - unfold ret, jsonify. intros [= <- <- <-]. right. left.
    split_and!; [done | | by eauto]. simpl. by rewrite insert_empty.
Qed.

Lemma geocode_status_witness :
  ∃ address coords,
    address_args !! "address" = Some address ∧
    geocode_address sample_world address idle
    = (Return (Some coords), log_call (geocoder_call "0 Meridian Rd") idle) ∧
    VDict {[ "address" := VStr "0 Meridian Rd";
             "coordinates" := VDict {[ "lat" := VFloat 0; "lng" := VFloat 0 ]} ]}
    = VDict {[ "address" := VStr address;
               "coordinates" := VDict {[ "lat" := lat coords;
                                         "lng" := lng coords ]} ]}.
Proof.
  destruct (geocode_status sample_world address_args idle
              (log_call (geocoder_call "0 Meridian Rd") idle)
              (VDict {[ "address" := VStr "0 Meridian Rd";
                        "coordinates" := VDict {[ "lat" := VFloat 0;
                                                  "lng" := VFloat 0 ]} ]})
              200) as [(? & _)|[(? & _)|(_ & H)]]; [| done | done | exact H].
  vm_compute. reflexivity.
Defined.

(** ** The JSON decoder *)

(** X22: a [ValueError] or a [RecursionError] of the JSON decoder, on a
    reply whose status is not 4xx or 5xx, is caught by neither client:
    [fetch_nes_events] and [geocode_address] raise it, after their one
    request. *)
Theorem decoder_error_escapes (w : World) (address : string) (s : state)
    (st : Z) (e : exn) :
  e = ValueError ∨ e = RecursionError →
  ¬ error_status st →
  (nes_api w = Reply st (Refused e) →
   fetch_nes_events w s = (Raise e, log_call feed_call s)) ∧
  (census_geocoder w address = Reply st (Refused e) →
   geocode_address w address s
   = (Raise e, log_call (geocoder_call address) s)).
Proof.
  intros He Hst. split; intros Hw.
  - unfold fetch_nes_events, feed_call, try_except, bind, requests_get.
    rewrite Hw, raise_for_status_ok by done.
    by destruct He as [-> | ->].
  - unfold geocode_address, geocoder_call, try_except, bind, requests_get.
    rewrite Hw, raise_for_status_ok by done.
    by destruct He as [-> | ->].
Qed.

Lemma decoder_error_escapes_witness :
  fetch_nes_events long_number_world idle
  = (Raise ValueError, log_call feed_call idle) ∧
  geocode_address long_number_world "1 Main St" idle
  = (Raise ValueError, log_call (geocoder_call "1 Main St") idle).
Proof.
  destruct (decoder_error_escapes long_number_world "1 Main St" idle 200
              ValueError) as [H1 H2].
  - by left.
  - unfold error_status. lia.
  - split; [by apply H1 | by apply H2].
Defined.
